(** * Verification of the reel compositor of marathon-aws

    Shallow embedding of
    - [src/lambdas/generate_event_reels/reel_generation_handler/reel_generation.py]
      (colour parsing, position resolution, image transform, text rasteriser,
      overlay compositor), and
    - [src/lambdas/generate_event_reels/reel_generation_handler/handler.py]
      ([evaluate_template_text]).

    Modelling conventions.
    - Python [int] values are [Z]; Python [float] values (times, ratios,
      scales, opacities) are exact rationals [Q]; float rounding is
      modelled ([fl]) only in [_create_gradient_image], where it shows in
      the result.  [int(x)] on a float truncates toward zero ([py_int]);
      [a // b] on ints is [Z.div] (floor division).
    - Python [str] values are Stdlib [string]s of ASCII characters.
    - Raised exceptions are the [Err] case of the [result] monad.
    - Pillow, the file system, moviepy's random draw and the font machinery
      are the operations of a [backend] record, left abstract; the code of
      the repository around them is translated line by line. *)

From Stdlib Require Import ZArith QArith Qround String Ascii List Bool Lia Lqa.
Import ListNotations.
Open Scope string_scope.

(* ------------------------------------------------------------------ *)
(** ** Python exceptions as a small error monad *)

Inductive exn :=
| ValueError (what : string)
| TypeError (what : string)
| IndexError
| ZeroDivisionError
| AttributeError (what : string).

Inductive result (A : Type) : Type :=
| Ok (a : A)
| Err (e : exn).
Arguments Ok {A} a.
Arguments Err {A} e.

Definition bind {A B} (m : result A) (k : A -> result B) : result B :=
  match m with
  | Ok a => k a
  | Err e => Err e
  end.

Notation "x <- m ;; k" := (bind m (fun x => k))
  (at level 61, m at next level, right associativity).

Definition is_ok {A} (r : result A) : bool :=
  match r with Ok _ => true | Err _ => false end.

(* ------------------------------------------------------------------ *)
(** ** Python numeric builtins *)

(** [int(q)] for a float [q]: truncation toward zero. *)
Definition py_int (q : Q) : Z :=
  if Qle_bool 0 q then Qfloor q else (- Qfloor (- q))%Z.

(** [abs(q)]. *)
Definition py_abs (q : Q) : Q := if Qle_bool 0 q then q else - q.

(** [a < b] and [a != b] on floats. *)
Definition Qltb (a b : Q) : bool := negb (Qle_bool b a).
Definition Qneqb (a b : Q) : bool := negb (Qeq_bool a b).

(** [min] / [max] on floats, as Python evaluates them: [min(a, b)] returns
    [a] unless [b < a]; [max(a, b)] returns [a] unless [a < b]. *)
Definition py_min (a b : Q) : Q := if Qltb b a then b else a.
Definition py_max (a b : Q) : Q := if Qltb a b then b else a.

(** Python's [round(q)] to an int: round half to even.  Not used by the
    code; it is the rounding the specification names in 4.1. *)
Definition py_round (q : Q) : Z :=
  let f := Qfloor q in
  let frac := q - inject_Z f in
  if Qltb frac (1 # 2) then f
  else if Qltb (1 # 2) frac then (f + 1)%Z
  else if Z.even f then f else (f + 1)%Z.

(** [n / d] rounded to the nearest integer, ties to even, for [d > 0]. *)
Definition div_round_even (n d : Z) : Z :=
  let q := (n / d)%Z in
  let r := (n mod d)%Z in
  if (2 * r <? d)%Z then q
  else if (d <? 2 * r)%Z then (q + 1)%Z
  else if Z.even q then q else (q + 1)%Z.

(** The IEEE 754 double nearest to [x], ties to even: 53-bit significand,
    spacing [2^-1074] below [2^-1022].  A Python float operation on finite
    operands returns [fl] of the exact result (no overflow is reached by
    the values it is used on). *)
Definition fl (x : Q) : Q :=
  let x := Qred x in
  let n := Qnum x in
  let d := Zpos (Qden x) in
  if (n =? 0)%Z then 0 else
  let a := Z.abs n in
  let e0 := (Z.log2 a - Z.log2 d)%Z in
  (* [l = floor(log2(a / d))], which is [e0] or [e0 - 1] *)
  let l := if (e0 <? 0)%Z
           then (if (a * 2 ^ (- e0) <? d)%Z then (e0 - 1)%Z else e0)
           else (if (a <? d * 2 ^ e0)%Z then (e0 - 1)%Z else e0) in
  let e := Z.max (l - 52) (-1074) in
  let m := if (e <? 0)%Z then div_round_even (a * 2 ^ (- e)) d
           else div_round_even a (d * 2 ^ e) in
  let v := if (e <? 0)%Z then Qmake m (Z.to_pos (2 ^ (- e))) else inject_Z (m * 2 ^ e) in
  if (n <? 0)%Z then - v else v.

(** A colour component as Pillow stores it in an 8-bit band ([CLIP8]). *)
Definition clip8 (v : Z) : Z := Z.max 0 (Z.min 255 v).

(* ------------------------------------------------------------------ *)
(** ** Python string builtins (ASCII) *)

(** [str.isspace] on one ASCII character (Python counts 9-13 and 28-32). *)
Definition py_isspace (c : ascii) : bool :=
  let n := nat_of_ascii c in
  (((9 <=? n) && (n <=? 13)) || ((28 <=? n) && (n <=? 32)))%nat.

Fixpoint lstrip (s : string) : string :=
  match s with
  | EmptyString => EmptyString
  | String c r => if py_isspace c then lstrip r else s
  end.

Fixpoint rstrip (s : string) : string :=
  match s with
  | EmptyString => EmptyString
  | String c r =>
      let r' := rstrip r in
      match r' with
      | EmptyString => if py_isspace c then EmptyString else String c EmptyString
      | _ => String c r'
      end
  end.

(** [s.strip()]. *)
Definition strip (s : string) : string := rstrip (lstrip s).

(** [s.lower()] on ASCII. *)
Definition ascii_lower (c : ascii) : ascii :=
  let n := nat_of_ascii c in
  if ((65 <=? n) && (n <=? 90))%nat then ascii_of_nat (n + 32) else c.

Fixpoint lower (s : string) : string :=
  match s with
  | EmptyString => EmptyString
  | String c r => String (ascii_lower c) (lower r)
  end.

(** [s.split(sep)] for a one-character separator: always at least one piece. *)
Fixpoint split_on (sep : ascii) (s : string) : list string :=
  match s with
  | EmptyString => [EmptyString]
  | String c r =>
      if Ascii.eqb c sep then EmptyString :: split_on sep r
      else match split_on sep r with
           | p :: ps => String c p :: ps
           | [] => [String c EmptyString]
           end
  end.

(** [sep.join(xs)]. *)
Fixpoint join (sep : string) (xs : list string) : string :=
  match xs with
  | [] => EmptyString
  | [x] => x
  | x :: xs' => x ++ sep ++ join sep xs'
  end.

Definition nl : ascii := ascii_of_nat 10%nat.

(* ------------------------------------------------------------------ *)
(** ** [int(s, 16)] *)

Definition hexval (c : ascii) : option Z :=
  let n := nat_of_ascii c in
  if ((48 <=? n) && (n <=? 57))%nat then Some (Z.of_nat (n - 48))
  else if ((97 <=? n) && (n <=? 102))%nat then Some (Z.of_nat (n - 87))
  else if ((65 <=? n) && (n <=? 70))%nat then Some (Z.of_nat (n - 55))
  else None.

(** Hex digits, where a single [_] may separate two digits. *)
Fixpoint hex_digits (s : string) (acc : Z) (prev_us seen : bool) : option Z :=
  match s with
  | EmptyString => if seen && negb prev_us then Some acc else None
  | String c r =>
      if Ascii.eqb c "_" then
        if seen && negb prev_us then hex_digits r acc true seen else None
      else match hexval c with
           | Some d => hex_digits r (acc * 16 + d)%Z false true
           | None => None
           end
  end.

(** Digits after an optional [0x] / [0X] prefix (itself optionally
    followed by one [_]). *)
Definition hex_body (u : string) : option Z :=
  match u with
  | String "0" (String x r) =>
      if Ascii.eqb x "x" || Ascii.eqb x "X" then
        match r with
        | String "_" r' => hex_digits r' 0 false false
        | _ => hex_digits r 0 false false
        end
      else hex_digits u 0 false false
  | _ => hex_digits u 0 false false
  end.

(** [int(s, 16)]: surrounding whitespace, an optional sign, an optional
    prefix, digits. *)
Definition py_int16 (s : string) : result Z :=
  let t := strip s in
  let '(neg, u) :=
    match t with
    | String "+" r => (false, r)
    | String "-" r => (true, r)
    | _ => (false, t)
    end in
  match hex_body u with
  | Some v => Ok (if neg then (- v)%Z else v)
  | None => Err (ValueError "invalid literal for int() with base 16")
  end.

(* ------------------------------------------------------------------ *)
(** ** [_parse_hex_color] *)

(** A colour argument as it reaches the code from the JSON overlay
    configuration: [None], a list of numbers, or a string. *)
Inductive color :=
| CNone
| CSeq (l : list Z)
| CStr (s : string).

(** The returned tuple, [None] for a [None] input. *)
Definition parse_hex_color (col : color) : result (option (list Z)) :=
  match col with
  | CNone => Ok None
  | CSeq l =>
      if (length l =? 3)%nat || (length l =? 4)%nat then Ok (Some l)
      (* [str(l)] starts with '[', which [int(_, 16)] refuses on lengths 6
         and 8; every other length reaches the final [raise]. *)
      else Err (ValueError "Unsupported color format")
  | CStr s0 =>
      let s1 := strip s0 in
      let s := match s1 with String "#" r => r | _ => s1 end in
      if (String.length s =? 6)%nat then
        r <- py_int16 (substring 0 2 s) ;;
        g <- py_int16 (substring 2 2 s) ;;
        b <- py_int16 (substring 4 2 s) ;;
        Ok (Some [r; g; b; 255%Z])
      else if (String.length s =? 8)%nat then
        r <- py_int16 (substring 0 2 s) ;;
        g <- py_int16 (substring 2 2 s) ;;
        b <- py_int16 (substring 4 2 s) ;;
        a <- py_int16 (substring 6 2 s) ;;
        Ok (Some [r; g; b; a])
      else Err (ValueError "Unsupported color format")
  end.

(* ------------------------------------------------------------------ *)
(** ** [get_position] and [_resolve_xy] *)

(** A position value of the overlay configuration: a list (or tuple) of
    numbers, a dict with optional ["x"] / ["y"] keys, a string, or any
    other value (e.g. [None]). *)
Inductive position :=
| PSeq (l : list Q)
| PDict (x y : option Q)
| PStr (s : string)
| POther.

Definition resolve_xy (x y : Q) (vw vh ow oh : Z) : Z * Z :=
  let px := if Qle_bool (py_abs x) 1 then py_int (inject_Z vw * x) else py_int x in
  let py := if Qle_bool (py_abs y) 1 then py_int (inject_Z vh * y) else py_int y in
  (px, py).

Inductive hanchor := HLeft | HRight | HCenter.
Inductive vanchor := VTop | VBottom | VCenter.

(** The [mapping] dict of [get_position]. *)
Definition keyword_mapping (p : string) : option (hanchor * vanchor) :=
  if String.eqb p "center" then Some (HCenter, VCenter)
  else if String.eqb p "top" then Some (HCenter, VTop)
  else if String.eqb p "bottom" then Some (HCenter, VBottom)
  else if String.eqb p "left" then Some (HLeft, VCenter)
  else if String.eqb p "right" then Some (HRight, VCenter)
  else if String.eqb p "top-left" then Some (HLeft, VTop)
  else if String.eqb p "top-right" then Some (HRight, VTop)
  else if String.eqb p "bottom-left" then Some (HLeft, VBottom)
  else if String.eqb p "bottom-right" then Some (HRight, VBottom)
  else None.

Definition get_position (pos : position) (video_size overlay_size : Z * Z)
  : result (Z * Z) :=
  let '(vw, vh) := video_size in
  let '(ow, oh) := overlay_size in
  match pos with
  | PSeq [x; y] => Ok (resolve_xy x y vw vh ow oh)
  | PSeq _ => Err (TypeError "Unsupported position format")
  | PDict x y =>
      Ok (resolve_xy (match x with Some v => v | None => 0 end)
                     (match y with Some v => v | None => 0 end) vw vh ow oh)
  | PStr s =>
      match keyword_mapping (lower s) with
      | None => Err (ValueError "Invalid position")
      | Some (hx, vy) =>
          let x := match hx with
                   | HLeft => 0%Z
                   | HRight => (vw - ow)%Z
                   | HCenter => ((vw - ow) / 2)%Z
                   end in
          let y := match vy with
                   | VTop => 0%Z
                   | VBottom => (vh - oh)%Z
                   | VCenter => ((vh - oh) / 2)%Z
                   end in
          Ok (x, y)
      end
  | POther => Err (TypeError "Unsupported position format")
  end.

(* ------------------------------------------------------------------ *)
(** ** RGBA images and the Pillow backend *)

Definition rgba : Type := (Z * Z * Z * Z)%type.

Definition transparent : rgba := (0, 0, 0, 0)%Z.

(** An RGBA raster: its size and its pixel at each coordinate. *)
Record image := mk_image {
  iw : Z;
  ih : Z;
  px : Z -> Z -> rgba
}.

Definition size (img : image) : Z * Z := (iw img, ih img).

(** [Image.new("RGBA", (w, h), col)]. *)
Definition image_new (sz : Z * Z) (col : rgba) : image :=
  mk_image (fst sz) (snd sz) (fun _ _ => col).

(** A colour tuple used as an RGBA fill: a 3-tuple gets an opaque alpha,
    and Pillow clips each component to [0..255]. *)
Definition to_rgba (l : list Z) : rgba :=
  match l with
  | [r; g; b] => (clip8 r, clip8 g, clip8 b, 255%Z)
  | [r; g; b; a] => (clip8 r, clip8 g, clip8 b, clip8 a)
  | _ => transparent
  end.

(** A new image whose alpha channel is [f] of the old one, colour kept. *)
Definition map_alpha (f : Z -> Z) (img : image) : image :=
  mk_image (iw img) (ih img)
    (fun x y => let '(r, g, b, a) := px img x y in (r, g, b, f a)).

(** [img.crop((l, t, r, b))]: the box size, zeros outside the source. *)
Definition crop (box : Z * Z * Z * Z) (img : image) : result image :=
  let '(l, t, r, b) := box in
  if ((r <? l) || (b <? t))%Z then Err (ValueError "Coordinate 'right' is less than 'left'")
  else Ok (mk_image (r - l) (b - t)
             (fun x y =>
                if ((0 <=? x + l) && (x + l <? iw img) &&
                    (0 <=? y + t) && (y + t <? ih img))%Z
                then px img (x + l) (y + t) else transparent)).

(** A font as [_load_font(font, size)] returns it: keyed by its arguments. *)
Definition font_key : Type := (string * Z)%type.

(** The operations the code takes from Pillow, the file system and
    [random]; they are left abstract. *)
Record backend := mk_backend {
  (** [os.path.exists(p)] *)
  path_exists : string -> bool;
  (** [Image.open(p).convert("RGBA")] *)
  open_rgba : string -> image;
  (** the pixels of [img.resize(size, Image.Resampling.LANCZOS)] for a
      new size of at least 1x1 (see [pil_resize]) *)
  resize : Z * Z -> image -> image;
  (** [img.rotate(angle, expand=True, fillcolor=fill)] *)
  rotate : Q -> rgba -> image -> image;
  (** [base.paste(img, offset, img)], the updated [base] *)
  paste : image -> image -> Z * Z -> image;
  (** [draw.textbbox((0, 0), s, font=font, stroke_width=sw)] *)
  textbbox : font_key -> string -> Z -> Z * Z * Z * Z;
  (** [draw.text(xy, s, font=font, fill=fill, stroke_width=sw,
      stroke_fill=sc)] on [img], the updated image *)
  draw_text : image -> Z * Z -> string -> font_key -> rgba -> Z -> rgba -> image;
  (** [random.uniform(-r, r)] as drawn for image [j] of overlay [i] *)
  uniform : nat -> nat -> Q -> Q
}.

Section Reel.

Variable E : backend.

(** [img.resize(size, Image.Resampling.LANCZOS)]: a copy when the size is
    unchanged; otherwise [ValueError] when the new width or height is
    below 1, else an image of the new size. *)
Definition pil_resize (sz : Z * Z) (img : image) : result image :=
  if ((fst sz =? iw img) && (snd sz =? ih img))%Z then Ok img
  else if ((fst sz <? 1) || (snd sz <? 1))%Z
  then Err (ValueError "height and width must be > 0")
  else Ok (mk_image (fst sz) (snd sz) (px (resize E sz img))).

(* ------------------------------------------------------------------ *)
(** ** [transform_image] *)

(** The opacity step is [alpha.point(lambda p: int(p * opacity))]: Pillow
    tabulates the function on [0..255] and clips each entry to [0..255]. *)
Definition transform_image (image_path : string) (scale rotation opacity : Q)
  : result image :=
  let img := open_rgba E image_path in
  img <- (if Qneqb scale 1 then
            pil_resize (py_int (inject_Z (iw img) * scale),
                        py_int (inject_Z (ih img) * scale)) img
          else Ok img) ;;
  let img :=
    if Qneqb rotation 0 then rotate E (- rotation) transparent img else img in
  let img :=
    if Qltb opacity 1 then map_alpha (fun p => clip8 (py_int (inject_Z p * opacity))) img
    else img in
  Ok img.

(* ------------------------------------------------------------------ *)
(** ** [_wrap_text] *)

(** [max_width_px] is [None] or an int; [if max_width_px and ...] is false
    for [None] and for [0]. *)
Definition truthy_width (mw : option Z) : option Z :=
  match mw with
  | Some m => if (m =? 0)%Z then None else Some m
  | None => None
  end.

(** The greedy packing of the words of one paragraph; [current] is the
    line being built. *)
Fixpoint wrap_words (font : font_key) (mw : option Z) (ws current : list string)
  : list string :=
  match ws with
  | [] => match current with [] => [] | _ => [join " " current] end
  | w :: ws' =>
      let test := strip (join " " (current ++ [w])) in
      let '(b0, _, b2, _) := textbbox E font test 0 in
      let w_px := (b2 - b0)%Z in
      match truthy_width mw, current with
      | Some m, _ :: _ =>
          if (m <? w_px)%Z then join " " current :: wrap_words font mw ws' [w]
          else wrap_words font mw ws' (current ++ [w])
      | _, _ => wrap_words font mw ws' (current ++ [w])
      end
  end.

Definition wrap_text (text : string) (font : font_key) (mw : option Z) : list string :=
  flat_map
    (fun paragraph =>
       match strip paragraph with
       | EmptyString => [EmptyString]
       | _ => wrap_words font mw (split_on " " paragraph) []
       end)
    (split_on nl text).

(* ------------------------------------------------------------------ *)
(** ** [_create_gradient_image] *)

(** The gradient is given as the [bg_gradient] dict with its defaults
    filled in: [start] ["#000000FF"], [end] ["#00000000"], [direction]
    ["vertical"]. *)
Record gradient := mk_gradient {
  g_start : color;
  g_end : color;
  g_direction : string
}.

(** [c[0] .. c[3]] of a parsed colour: [None] is not subscriptable, a
    3-tuple has no index 3. *)
Definition rgba_of_parsed (c : option (list Z)) : result rgba :=
  match c with
  | None => Err (TypeError "'NoneType' object is not subscriptable")
  | Some [r; g; b; a] => Ok (r, g, b, a)
  | Some _ => Err IndexError
  end.

(** [int(a * (1 - ratio) + b * ratio)] in floats: [a] and [b] are
    converted to floats, and each operation is rounded. *)
Definition blend_channel (a b : Z) (ratio : Q) : Z :=
  py_int (fl (fl (fl (inject_Z a) * fl (1 - ratio)) + fl (fl (inject_Z b) * ratio))).

(** The pixel [(r, g, b, a)] written by [pixels[x, y] = ...], each
    component clipped to [0..255] by Pillow. *)
Definition blend (s e : rgba) (ratio : Q) : rgba :=
  let '(s0, s1, s2, s3) := s in
  let '(e0, e1, e2, e3) := e in
  let ch (a b : Z) := clip8 (blend_channel a b ratio) in
  (ch s0 e0, ch s1 e1, ch s2 e2, ch s3 e3).

(** [ratio = i / max(n - 1, 1)] on ints: the double nearest to the
    quotient. *)
Definition gradient_ratio (i n : Z) : Q := fl (inject_Z i / inject_Z (Z.max (n - 1) 1)).

Definition create_gradient_image (width height : Z) (start_color end_color : option (list Z))
    (direction : string) : result image :=
  if String.eqb direction "vertical" then
    if (height <=? 0)%Z then Ok (image_new (width, height) transparent) else
    s <- rgba_of_parsed start_color ;;
    e <- rgba_of_parsed end_color ;;
    Ok (mk_image width height
          (fun _ y => blend s e (gradient_ratio y height)))
  else if String.eqb direction "horizontal" then
    if (width <=? 0)%Z then Ok (image_new (width, height) transparent) else
    s <- rgba_of_parsed start_color ;;
    e <- rgba_of_parsed end_color ;;
    Ok (mk_image width height
          (fun x _ => blend s e (gradient_ratio x width)))
  else Err (ValueError "Invalid gradient direction").

(* ------------------------------------------------------------------ *)
(** ** [make_text_rgba_image] *)

(** The [text_style] dict of a text overlay with the defaults of the
    compositor filled in. *)
Record text_style := mk_text_style {
  ts_font : string;
  ts_font_size : Z;
  ts_color : color;
  ts_stroke_color : color;
  ts_stroke_width : Z;
  ts_bg_color : color;
  (** [None] for an absent, [None] or empty ([{}], falsy) gradient *)
  ts_bg_gradient : option gradient;
  ts_padding : Z;
  ts_align : string;
  ts_line_spacing : Z;
  ts_char_animation : bool;
  ts_char_fade_duration : Q;
  ts_char_delay : Q;
  ts_max_width : option Q
}.

Definition default_text_style : text_style :=
  mk_text_style "DejaVuSans.ttf" 48 (CStr "#FFFFFF") (CStr "#000000") 0 CNone None
    10 "center" 6 false (15 # 100) (5 # 100) None.

(** Python truthiness of a colour argument. *)
Definition color_truthy (c : color) : bool :=
  match c with
  | CNone | CSeq [] | CStr EmptyString => false
  | _ => true
  end.

Definition list_max (l : list Z) : Z :=
  match l with
  | [] => 0%Z
  | x :: xs => fold_left Z.max xs x
  end.

Definition sum_Z (l : list Z) : Z := fold_right Z.add 0%Z l.

(** [np.clip(v, lo, hi)]. *)
Definition Qclip (v lo hi : Q) : Q :=
  if Qltb v lo then lo else if Qltb hi v then hi else v.

(** The drawing loop: [y] starts at [pad] and moves down by the line
    height plus [line_spacing]. *)
Fixpoint draw_lines (img : image) (font : font_key) (st : text_style)
    (fill sc : rgba) (img_w pad : Z) (lines : list string) (y : Z) : image :=
  match lines with
  | [] => img
  | ln :: rest =>
      let sw := ts_stroke_width st in
      let '(b0, b1, b2, b3) := textbbox E font ln sw in
      let lw := (b2 - b0)%Z in
      let lh := (b3 - b1)%Z in
      let x := if String.eqb (ts_align st) "left" then pad
               else if String.eqb (ts_align st) "right" then (img_w - pad - lw)%Z
               else ((img_w - lw) / 2)%Z in
      let img' := draw_text E img (x, y) ln font fill sw sc in
      draw_lines img' font st fill sc img_w pad rest (y + lh + ts_line_spacing st)%Z
  end.

Definition make_text_rgba_image (text : string) (max_width_px : option Z)
    (st : text_style) (opacity : Q) : result image :=
  let font_obj := (ts_font st, ts_font_size st) in
  let lines := wrap_text text font_obj max_width_px in
  let line_boxes := map (fun ln => textbbox E font_obj ln (ts_stroke_width st)) lines in
  let line_widths := map (fun '(b0, _, b2, _) => (b2 - b0)%Z) line_boxes in
  let line_heights := map (fun '(_, b1, _, b3) => (b3 - b1)%Z) line_boxes in
  let text_w := list_max line_widths in
  let text_h := (sum_Z line_heights
                 + Z.max 0 (Z.of_nat (length lines) - 1) * ts_line_spacing st)%Z in
  let pad := ts_padding st in
  let img_w := Z.max 1 (text_w + 2 * pad) in
  let img_h := Z.max 1 (text_h + 2 * pad) in
  img <- match ts_bg_gradient st with
         | Some g =>
             start_color <- parse_hex_color (g_start g) ;;
             end_color <- parse_hex_color (g_end g) ;;
             create_gradient_image img_w img_h start_color end_color (g_direction g)
         | None =>
             bg_rgba <- (if color_truthy (ts_bg_color st)
                         then c <- parse_hex_color (ts_bg_color st) ;;
                              Ok (match c with Some l => to_rgba l | None => transparent end)
                         else Ok transparent) ;;
             Ok (image_new (img_w, img_h) bg_rgba)
         end ;;
  fill <- parse_hex_color (ts_color st) ;;
  sc <- parse_hex_color (ts_stroke_color st) ;;
  let fill := match fill with Some l => to_rgba l | None => (255, 255, 255, 255)%Z end in
  let sc := match sc with Some l => to_rgba l | None => (0, 0, 0, 255)%Z end in
  let img := draw_lines img font_obj st fill sc img_w pad lines pad in
  let img :=
    if Qltb opacity 1
    then map_alpha (fun a => py_int (Qclip (inject_Z a * opacity) 0 255)) img
    else img in
  Ok img.

(* ------------------------------------------------------------------ *)
(** ** The overlay compositor, [overlay_images_on_video] *)

(** One entry of [overlays], with the [.get] defaults of the code filled
    in: [type] "image", [start_time] / [duration] 0, [image_paths] [],
    [rotation_range] 10, [position] "center", [width] / [height] /
    [bg_color] [None], [opacity] 1.0, [scale] 1.0, [fit_mode] "contain",
    [rotation] 0.  [ov_image_path] and [ov_text] are [None] when the key
    is absent or [None]; [ov_text_position] is [None] when absent. *)
Record overlay := mk_overlay {
  ov_type : string;
  ov_start_time : Q;
  ov_duration : Q;
  ov_image_paths : list string;
  ov_rotation_range : Q;
  ov_position : position;
  ov_width : option Q;
  ov_height : option Q;
  ov_bg_color : color;
  ov_opacity : Q;
  ov_scale : Q;
  ov_fit_mode : string;
  ov_rotation : Q;
  ov_image_path : option string;
  ov_text : option string;
  ov_text_position : option position;
  ov_text_style : text_style
}.

(** What a layer shows: a fixed image, or the character fade-in clip of
    [make_animated_text_clip] over its base image. *)
Inductive layer_kind :=
| LStatic
| LAnimated (char_fade_duration char_delay : Q).

(** One clip of [overlay_clips]: [ImageClip(..., duration).with_start(start)
    .with_position(pos)]. *)
Record layer := mk_layer {
  l_start : Q;
  l_duration : Q;
  l_pos : Z * Z;
  l_image : image;
  l_kind : layer_kind
}.

(** [int(video_dim * v) if v <= 1.0 else int(v)]: a ratio or a pixel size. *)
Definition target_dim (video_dim : Z) (v : Q) : Z :=
  if Qle_bool v 1 then py_int (inject_Z video_dim * v) else py_int v.

(** [a / b] on two ints. *)
Definition int_div (a b : Z) : result Q :=
  if (b =? 0)%Z then Err ZeroDivisionError else Ok (inject_Z a / inject_Z b).

(** The [contain] resize, also used for an unknown [fit_mode]. *)
Definition fit_contain (tw th : option Z) (img : image) : result image :=
  let cw := iw img in
  let ch := ih img in
  match tw, th with
  | Some tw, Some th =>
      width_scale <- int_div tw cw ;;
      height_scale <- int_div th ch ;;
      let f := py_min width_scale height_scale in
      pil_resize (py_int (inject_Z cw * f), py_int (inject_Z ch * f)) img
  | Some tw, None =>
      f <- int_div tw cw ;;
      pil_resize (tw, py_int (inject_Z ch * f)) img
  | None, Some th =>
      f <- int_div th ch ;;
      pil_resize (py_int (inject_Z cw * f), th) img
  | None, None => Ok img
  end.

(** The width/height override of an [image_stack] image, with [fit_mode];
    no override when both are [None]. *)
Definition fit_image (video_size : Z * Z) (width height : option Q)
    (fit_mode : string) (img : image) : result image :=
  match width, height with
  | None, None => Ok img
  | _, _ =>
      let cw := iw img in
      let ch := ih img in
      let tw := option_map (target_dim (fst video_size)) width in
      let th := option_map (target_dim (snd video_size)) height in
      if String.eqb fit_mode "stretch" then
        pil_resize (match tw with Some w => w | None => cw end,
                    match th with Some h => h | None => ch end) img
      else if String.eqb fit_mode "contain" then fit_contain tw th img
      else if String.eqb fit_mode "cover" then
        match tw, th with
        | Some tw, Some th =>
            width_scale <- int_div tw cw ;;
            height_scale <- int_div th ch ;;
            let f := py_max width_scale height_scale in
            let new_width := py_int (inject_Z cw * f) in
            let new_height := py_int (inject_Z ch * f) in
            img <- pil_resize (new_width, new_height) img ;;
            let left := ((new_width - tw) / 2)%Z in
            let top := ((new_height - th) / 2)%Z in
            crop (left, top, left + tw, top + th)%Z img
        | _, _ => fit_contain tw th img
        end
      else fit_contain tw th img
  end.

(** The body of the inner loop over [image_paths] for one existing image. *)
Definition stack_image (video_size : Z * Z) (i : nat) (ov : overlay)
    (time_interval : Q) (img_idx : nat) (image_path : string) : result layer :=
  let start_time := ov_start_time ov in
  let duration := ov_duration ov in
  let img_start_time := start_time + inject_Z (Z.of_nat img_idx) * time_interval in
  let img_duration := duration - inject_Z (Z.of_nat img_idx) * time_interval in
  let random_rotation := uniform E i img_idx (ov_rotation_range ov) in
  img <- transform_image image_path (ov_scale ov) 0 (ov_opacity ov) ;;
  img <- fit_image video_size (ov_width ov) (ov_height ov) (ov_fit_mode ov) img ;;
  img <- match ov_bg_color ov with
         | CNone => Ok img
         | bgc =>
             bg <- parse_hex_color bgc ;;
             let bg_rgba := match bg with Some l => to_rgba l | None => transparent end in
             let border_size := 20%Z in
             let matted := image_new (iw img + border_size * 2, ih img + border_size * 2)%Z bg_rgba in
             Ok (paste E matted img (border_size, border_size))
         end ;;
  let img := if Qneqb random_rotation 0
             then rotate E (- random_rotation) transparent img else img in
  pos <- get_position (ov_position ov) video_size (iw img, ih img) ;;
  Ok (mk_layer img_start_time img_duration pos img LStatic).

(** [for img_idx, image_path in enumerate(image_paths)], missing files
    skipped. *)
Fixpoint stack_loop (video_size : Z * Z) (i : nat) (ov : overlay) (time_interval : Q)
    (img_idx : nat) (paths : list string) : result (list layer) :=
  match paths with
  | [] => Ok []
  | p :: ps =>
      if path_exists E p then
        l <- stack_image video_size i ov time_interval img_idx p ;;
        ls <- stack_loop video_size i ov time_interval (S img_idx) ps ;;
        Ok (l :: ls)
      else stack_loop video_size i ov time_interval (S img_idx) ps
  end.

(** The [image_stack] branch, entered once the skip checks have passed. *)
Definition image_stack_layers (video_size : Z * Z) (i : nat) (ov : overlay)
  : result (list layer) :=
  match ov_image_paths ov with
  | [] => Ok []
  | image_paths =>
      let num_images := length image_paths in
      let time_interval := ov_duration ov / inject_Z (Z.of_nat num_images) in
      stack_loop video_size i ov time_interval 0 image_paths
  end.

(** The width/height override of a single image overlay (no [fit_mode]). *)
Definition override_image (video_size : Z * Z) (width height : option Q) (img : image)
  : result image :=
  match width, height with
  | None, None => Ok img
  | _, _ =>
      let new_width := match width with
                       | Some w => target_dim (fst video_size) w
                       | None => iw img end in
      let new_height := match height with
                        | Some h => target_dim (snd video_size) h
                        | None => ih img end in
      pil_resize (new_width, new_height) img
  end.

(** Branch A: the single image overlay. *)
Definition image_layers (video_size : Z * Z) (ov : overlay) : result (list layer) :=
  match ov_image_path ov with
  | None => Ok []
  | Some image_path =>
      if negb (path_exists E image_path) then Ok []
      else
        img <- transform_image image_path (ov_scale ov) (ov_rotation ov) (ov_opacity ov) ;;
        img <- override_image video_size (ov_width ov) (ov_height ov) img ;;
        res <- match ov_bg_color ov with
               | CNone => Ok (img, ov_position ov)
               | bgc =>
                   bg <- parse_hex_color bgc ;;
                   let bg_rgba := match bg with Some l => to_rgba l | None => transparent end in
                   let background := image_new video_size bg_rgba in
                   let x_offset := ((fst video_size - iw img) / 2)%Z in
                   let y_offset := ((snd video_size - ih img) / 2)%Z in
                   Ok (paste E background img (x_offset, y_offset), PSeq [0; 0])
               end ;;
        let '(img, position) := res in
        pos <- get_position position video_size (iw img, ih img) ;;
        Ok [mk_layer (ov_start_time ov) (ov_duration ov) pos img LStatic]
  end.

(** Branch B: the text overlay, static or character-animated. *)
Definition text_layers (video_size : Z * Z) (ov : overlay) : result (list layer) :=
  match ov_text ov with
  | None => Ok []
  | Some text =>
      let text_position := match ov_text_position ov with
                           | Some p => p | None => ov_position ov end in
      let st := ov_text_style ov in
      let max_width_px := option_map (target_dim (fst video_size)) (ts_max_width st) in
      base <- make_text_rgba_image text max_width_px st (ov_opacity ov) ;;
      if ts_char_animation st then
        (* [text_clip.rotate(-rotation)]: moviepy 2 clips have no [rotate] *)
        if Qneqb (ov_rotation ov) 0
        then Err (AttributeError "'VideoClip' object has no attribute 'rotate'") else
        tpos <- get_position text_position video_size (iw base, ih base) ;;
        Ok [mk_layer (ov_start_time ov) (ov_duration ov) tpos base
              (LAnimated (ts_char_fade_duration st) (ts_char_delay st))]
      else
        let text_img := if Qneqb (ov_rotation ov) 0
                        then rotate E (- ov_rotation ov) transparent base else base in
        tpos <- get_position text_position video_size (iw text_img, ih text_img) ;;
        Ok [mk_layer (ov_start_time ov) (ov_duration ov) tpos text_img LStatic]
  end.

(** One iteration of [for i, overlay_config in enumerate(overlays)]: the
    clips it appends to [overlay_clips]. *)
Definition process_overlay (video_duration : Q) (video_size : Z * Z) (i : nat)
    (ov : overlay) : result (list layer) :=
  if Qle_bool (ov_duration ov) 0 then Ok []
  else if Qle_bool video_duration (ov_start_time ov) then Ok []
  else if String.eqb (ov_type ov) "image_stack" then image_stack_layers video_size i ov
  else
    a <- image_layers video_size ov ;;
    b <- text_layers video_size ov ;;
    Ok (a ++ b)%list.

Fixpoint process_from (video_duration : Q) (video_size : Z * Z) (i : nat)
    (ovs : list overlay) : result (list layer) :=
  match ovs with
  | [] => Ok []
  | ov :: rest =>
      a <- process_overlay video_duration video_size i ov ;;
      b <- process_from video_duration video_size (S i) rest ;;
      Ok (a ++ b)%list
  end.

(** The background video as [VideoFileClip] reports it. *)
Record video := mk_video {
  v_duration : Q;
  v_w : Z;
  v_h : Z
}.

(** [overlay_images_on_video]: [Ok clips] when the loop finishes, in which
    case [CompositeVideoClip([video] + clips)] is written to the output
    path; [Err e] when an exception escapes the loop, in which case nothing
    is written. *)
Definition overlay_images_on_video (v : video) (overlays : list overlay)
  : result (list layer) :=
  process_from (v_duration v) (v_w v, v_h v) 0 overlays.

End Reel.

(* ------------------------------------------------------------------ *)
(** ** [evaluate_template_text] (handler.py) *)

(** [\w] on ASCII: letters, digits and underscore. *)
Definition is_word (c : ascii) : bool :=
  let n := nat_of_ascii c in
  (((48 <=? n) && (n <=? 57)) || ((65 <=? n) && (n <=? 90)) ||
   ((97 <=? n) && (n <=? 122)) || (n =? 95))%nat.

(** [re.findall(r'\$\{(\w+)\}', line)], as a left-to-right scan.  The
    regex only matches at a [$]; a failed attempt at a [$] has read [$],
    maybe [{] and word characters, none of which can start a match except
    a final [$], so the scan resumes in [SawDollar] on a [$] and in [Idle]
    otherwise.  [InName acc] holds the group read so far. *)
Inductive scan_state :=
| Idle
| SawDollar
| InName (acc : string).

Fixpoint find_vars_from (st : scan_state) (s : string) : list string :=
  match s with
  | EmptyString => []
  | String c r =>
      let restart := if Ascii.eqb c "$" then find_vars_from SawDollar r
                     else find_vars_from Idle r in
      match st with
      | Idle => restart
      | SawDollar =>
          if Ascii.eqb c "{" then find_vars_from (InName EmptyString) r else restart
      | InName acc =>
          if is_word c then find_vars_from (InName (acc ++ String c EmptyString)) r
          else if Ascii.eqb c "}" && negb (String.eqb acc EmptyString)
          then acc :: find_vars_from Idle r
          else restart
      end
  end.

Definition find_vars (line : string) : list string := find_vars_from Idle line.

(** [s.replace(old, new)] for a non-empty [old]: every non-overlapping
    occurrence, left to right.  [skip] counts the characters of a
    replaced occurrence still to drop. *)
Fixpoint replace_from (old new : string) (skip : nat) (s : string) : string :=
  match s with
  | EmptyString => EmptyString
  | String c r =>
      match skip with
      | S k => replace_from old new k r
      | O =>
          if String.prefix old s
          then new ++ replace_from old new (String.length old - 1) r
          else String c (replace_from old new 0 r)
      end
  end.

Definition str_replace (s old new : string) : string := replace_from old new 0 s.

(** The [template_vars] dict: each key with [None] (JSON null) or
    [Some (str(value))]. *)
Definition template_vars : Type := list (string * option string).

(** [template_vars.get(name)]: [None] when absent. *)
Definition vars_get (vars : template_vars) (name : string) : option (option string) :=
  match find (fun kv => String.eqb (fst kv) name) vars with
  | Some (_, v) => Some v
  | None => None
  end.

(** [value is None] for [value = template_vars.get(name)]. *)
Definition var_missing (vars : template_vars) (name : string) : bool :=
  match vars_get vars name with
  | Some (Some _) => false
  | _ => true
  end.

(** [str(template_vars.get(name, ''))]. *)
Definition var_str (vars : template_vars) (name : string) : string :=
  match vars_get vars name with
  | Some (Some v) => v
  | Some None => "None"
  | None => EmptyString
  end.

Definition placeholder (name : string) : string := "${" ++ name ++ "}".

(** One line: [None] when it is skipped, else the substituted line. *)
Definition evaluate_line (vars : template_vars) (line : string) : option string :=
  let matches := find_vars line in
  if existsb (var_missing vars) matches then None
  else Some (fold_left (fun acc v => str_replace acc (placeholder v) (var_str vars v))
                       matches line).

Definition nl_str : string := String nl EmptyString.

Definition evaluate_template_text (text : string) (vars : template_vars) : string :=
  join nl_str
    (flat_map (fun line => match evaluate_line vars line with
                           | Some l => [l] | None => [] end)
              (split_on nl text)).

(* ------------------------------------------------------------------ *)
(** ** Statements of the specification, as reference definitions *)

(** The nine position keywords of spec 4.1. *)
Inductive keyword :=
| KCenter | KTop | KBottom | KLeft | KRight
| KTopLeft | KTopRight | KBottomLeft | KBottomRight.

Definition keyword_string (k : keyword) : string :=
  match k with
  | KCenter => "center" | KTop => "top" | KBottom => "bottom"
  | KLeft => "left" | KRight => "right"
  | KTopLeft => "top-left" | KTopRight => "top-right"
  | KBottomLeft => "bottom-left" | KBottomRight => "bottom-right"
  end.

(** Spec 4.1: the (horizontal, vertical) anchor pair of each keyword. *)
Definition spec_anchors (k : keyword) : hanchor * vanchor :=
  match k with
  | KCenter => (HCenter, VCenter) | KTop => (HCenter, VTop)
  | KBottom => (HCenter, VBottom) | KLeft => (HLeft, VCenter)
  | KRight => (HRight, VCenter) | KTopLeft => (HLeft, VTop)
  | KTopRight => (HRight, VTop) | KBottomLeft => (HLeft, VBottom)
  | KBottomRight => (HRight, VBottom)
  end.

(** Spec 4.1: left -> 0, right -> container - content,
    center -> (container - content) // 2; the same vertically. *)
Definition spec_h_px (a : hanchor) (container content : Z) : Z :=
  match a with
  | HLeft => 0
  | HRight => container - content
  | HCenter => (container - content) / 2
  end%Z.

Definition spec_v_px (a : vanchor) (container content : Z) : Z :=
  match a with
  | VTop => 0
  | VBottom => container - content
  | VCenter => (container - content) / 2
  end%Z.

(** Spec 4.1 for a numeric axis value: [round(container * v)] when
    [abs(v) <= 1.0], else [v] itself. *)
Definition spec_axis_round (container : Z) (v : Q) : Q :=
  if Qle_bool (py_abs v) 1 then inject_Z (py_round (inject_Z container * v)) else v.

(** What the code computes for one numeric axis: [int()] truncation. *)
Definition axis_trunc (container : Z) (v : Q) : Z :=
  if Qle_bool (py_abs v) 1 then py_int (inject_Z container * v) else py_int v.

(** Spec 4.4: the (start, duration) of image [k] of an [image_stack] of
    [n] images. *)
Definition spec_stack_timing (s d : Q) (n k : nat) : Q * Q :=
  (s + inject_Z (Z.of_nat k) * (d / inject_Z (Z.of_nat n)),
   d - inject_Z (Z.of_nat k) * (d / inject_Z (Z.of_nat n))).

Definition layer_timing (l : layer) : Q * Q := (l_start l, l_duration l).

(** A template line as placeholders and other characters. *)
Inductive tok :=
| TChar (c : ascii)
| TVar (name : string).

Definition render_tok (t : tok) : string :=
  match t with
  | TChar c => String c EmptyString
  | TVar name => placeholder name
  end.

Fixpoint render (ts : list tok) : string :=
  match ts with
  | [] => EmptyString
  | t :: ts' => render_tok t ++ render ts'
  end.

Fixpoint tok_vars (ts : list tok) : list string :=
  match ts with
  | [] => []
  | TChar _ :: ts' => tok_vars ts'
  | TVar v :: ts' => v :: tok_vars ts'
  end.

(** Spec 4.5: every placeholder replaced by the string of its value, in one
    pass. *)
Fixpoint render_subst (vars : template_vars) (ts : list tok) : string :=
  match ts with
  | [] => EmptyString
  | TChar c :: ts' => String c (render_subst vars ts')
  | TVar v :: ts' => var_str vars v ++ render_subst vars ts'
  end.

Fixpoint all_chars (p : ascii -> bool) (s : string) : bool :=
  match s with
  | EmptyString => true
  | String c r => p c && all_chars p r
  end.

(** A well-formed token: a character other than [$] and newline, or a
    placeholder with a non-empty [\w+] name. *)
Definition tok_ok (t : tok) : bool :=
  match t with
  | TChar c => negb (Ascii.eqb c "$") && negb (Ascii.eqb c nl)
  | TVar v => negb (String.eqb v EmptyString) && all_chars is_word v
  end.

(** A backend for concrete runs: every path exists and opens as a white
    100x50 image, resizing keeps the pixels at the requested size, text
    boxes are empty, drawing and rotating change nothing, draws are 0. *)
Definition test_backend : backend :=
  mk_backend
    (fun _ => true)
    (fun _ => image_new (100, 50)%Z (255, 255, 255, 255)%Z)
    (fun sz img => mk_image (fst sz) (snd sz) (px img))
    (fun _ _ img => img)
    (fun base _ _ => base)
    (fun _ _ _ => (0, 0, 0, 0)%Z)
    (fun img _ _ _ _ _ _ => img)
    (fun _ _ _ => 0).

(** [test_backend] with images of alpha 128. *)
Definition half_alpha_backend : backend :=
  mk_backend
    (fun _ => true)
    (fun _ => image_new (100, 50)%Z (255, 255, 255, 128)%Z)
    (fun sz img => mk_image (fst sz) (snd sz) (px img))
    (fun _ _ img => img)
    (fun base _ _ => base)
    (fun _ _ _ => (0, 0, 0, 0)%Z)
    (fun img _ _ _ _ _ _ => img)
    (fun _ _ _ => 0).

(** The overlay with every key absent. *)
Definition default_overlay : overlay :=
  mk_overlay "image" 0 0 [] 10 (PStr "center") None None CNone 1 1 "contain" 0
    None None None default_text_style.

(** A single image overlay from [0] to [1] s at [position], with
    background colour [bg]. *)
Definition image_overlay (image_path : string) (pos : position) (bg : color) : overlay :=
  mk_overlay "image" 0 1 [] 10 pos None None bg 1 1 "contain" 0
    (Some image_path) None None default_text_style.

(** A text overlay from [0] to [1] s with style [st]. *)
Definition text_overlay (text : string) (st : text_style) : overlay :=
  mk_overlay "image" 0 1 [] 10 (PStr "center") None None CNone 1 1 "contain" 0
    None (Some text) None st.

(** The default text style with text colour [c]. *)
Definition style_with_color (c : color) : text_style :=
  mk_text_style "DejaVuSans.ttf" 48 c (CStr "#000000") 0 CNone None
    10 "center" 6 false (15 # 100) (5 # 100) None.

(** A 10 s, 100x100 background video. *)
Definition test_video : video := mk_video 10 100 100.

(** The stack of three existing images of 100x50, from t = 10 for 9 s. *)
Definition stack_overlay : overlay :=
  mk_overlay "image_stack" 10 9 ["a.png"; "b.png"; "c.png"] 10 (PStr "center")
    None None CNone 1 1 "contain" 0 None None None default_text_style.

(** A single image overlay asking for the full 1.0 x 1.0 box with
    [fit_mode] "contain". *)
Definition contain_image_overlay : overlay :=
  mk_overlay "image" 0 1 [] 10 (PStr "center") (Some 1) (Some 1) CNone 1 1 "contain" 0
    (Some "a.png") None None default_text_style.

(** Placeholder tokens used in the proofs about [evaluate_template_text]. *)
Definition no_dollar (s : string) : bool := all_chars (fun c => negb (Ascii.eqb c "$")) s.

Definition no_nl (s : string) : bool := all_chars (fun c => negb (Ascii.eqb c nl)) s.

Fixpoint chars_toks (s : string) : list tok :=
  match s with
  | EmptyString => []
  | String c r => TChar c :: chars_toks r
  end.

(** The invariant kept while placeholders are replaced: no [$] outside
    placeholders, placeholder names of word characters. *)
Definition tok_inv (t : tok) : bool :=
  match t with
  | TChar c => negb (Ascii.eqb c "$")
  | TVar v => negb (String.eqb v EmptyString) && all_chars is_word v
  end.

(** The tokens after [line.replace("${v}", value)]. *)
Definition subst1 (v value : string) (ts : list tok) : list tok :=
  flat_map (fun t => match t with
                     | TVar w => if String.eqb w v then chars_toks value else [t]
                     | TChar _ => [t]
                     end) ts.

(** The tokens after the placeholders of [names] are replaced by [f]. *)
Definition subst_in (names : list string) (f : string -> string) (ts : list tok) : list tok :=
  flat_map (fun t => match t with
                     | TVar w => if existsb (String.eqb w) names then chars_toks (f w) else [t]
                     | TChar _ => [t]
                     end) ts.

(* ------------------------------------------------------------------ *)
(** ** [_get_character_positions] and [make_animated_text_clip] *)

Section Anim.

Variable E : backend.

(** One entry of [char_positions]: (char, x, y, width, height). *)
Definition char_pos : Type := (ascii * Z * Z * Z * Z)%type.

(** The inner loop of [_get_character_positions] over the characters of
    one line; [textbbox] is called without a stroke width (0). *)
Fixpoint line_char_positions (font : font_key) (line : string) (x_offset y_offset : Z)
  : list char_pos :=
  match line with
  | EmptyString => []
  | String c r =>
      let '(b0, b1, b2, b3) := textbbox E font (String c EmptyString) 0 in
      let char_width := (b2 - b0)%Z in
      let char_height := (b3 - b1)%Z in
      (c, x_offset, y_offset, char_width, char_height)
        :: line_char_positions font r (x_offset + char_width) y_offset
  end.

(** The outer loop over the lines: the next line starts [line_height +
    line_spacing] lower, an empty line measured as [" "]. *)
Fixpoint lines_char_positions (font : font_key) (line_spacing : Z) (lines : list string)
    (y_offset : Z) : list char_pos :=
  match lines with
  | [] => []
  | line :: rest =>
      let '(_, b1, _, b3) :=
        textbbox E font (if String.eqb line EmptyString then " " else line) 0 in
      let line_height := (b3 - b1)%Z in
      (line_char_positions font line 0 y_offset
       ++ lines_char_positions font line_spacing rest (y_offset + line_height + line_spacing))%list
  end.

Definition get_character_positions (text : string) (font : font_key) (line_spacing : Z)
  : list char_pos :=
  lines_char_positions font line_spacing (split_on nl text) 0.

(** The opacity of a character at time [t] in [make_frame]. *)
Definition char_opacity (t char_start_time char_fade_duration : Q) : Q :=
  let char_end_time := char_start_time + char_fade_duration in
  if Qltb t char_start_time then 0
  else if Qle_bool char_end_time t then 1
  else (t - char_start_time) / char_fade_duration.

(** A bound of the numpy slice [start:stop] on an axis of length [n]:
    a negative bound counts from the end, and bounds are clamped to
    [0, n]. *)
Definition slice_bound (n i : Z) : Z :=
  if (i <? 0)%Z then Z.max 0 (i + n) else Z.min i n.

Definition in_slice (n start stop i : Z) : bool :=
  (slice_bound n start <=? i)%Z && (i <? slice_bound n stop)%Z.

(** The loop of [make_frame]: [frame[y_start:y_end, x_start:x_end, 3] *=
    char_opacity] for each character, on the alpha plane [alpha x y]. *)
Fixpoint fade_chars (t char_delay char_fade_duration : Q) (padding img_width img_height : Z)
    (ps : list char_pos) (char_index : nat) (alpha : Z -> Z -> Q) : Z -> Z -> Q :=
  match ps with
  | [] => alpha
  | (c, x, y, w, h) :: rest =>
      if Ascii.eqb c nl then
        fade_chars t char_delay char_fade_duration padding img_width img_height rest
          char_index alpha
      else
        let char_start_time := inject_Z (Z.of_nat char_index) * char_delay in
        let op := char_opacity t char_start_time char_fade_duration in
        let x_start := (padding + x)%Z in
        let y_start := (padding + y)%Z in
        let x_end := Z.min (x_start + w + 2) img_width in
        let y_end := Z.min (y_start + h + 2) img_height in
        let alpha' :=
          if (x_start <? img_width)%Z && (y_start <? img_height)%Z && Qltb op 1
          then fun px py =>
                 if in_slice img_width x_start x_end px && in_slice img_height y_start y_end py
                 then alpha px py * op else alpha px py
          else alpha in
        fade_chars t char_delay char_fade_duration padding img_width img_height rest
          (S char_index) alpha'
  end.

(** [make_frame(t)]: the base image with its alpha faded per character,
    then [astype(np.uint8)], which truncates the alpha (kept in
    [0, 255] by the factors in [0, 1]). *)
Definition make_frame (base : image) (ps : list char_pos) (padding : Z)
    (char_delay char_fade_duration : Q) (t : Q) : image :=
  let img_width := iw base in
  let img_height := ih base in
  let alpha :=
    fade_chars t char_delay char_fade_duration padding img_width img_height ps 0
      (fun x y => let '(_, _, _, a) := px base x y in inject_Z a) in
  mk_image img_width img_height
    (fun x y => let '(r, g, b, _) := px base x y in (r, g, b, py_int (alpha x y))).

(** [make_animated_text_clip]: the frame at each time and the size of the
    base image. *)
Definition make_animated_text_clip (text : string) (max_width_px : option Z)
    (st : text_style) (opacity : Q) : result ((Q -> image) * (Z * Z)) :=
  base_img <- make_text_rgba_image E text max_width_px st opacity ;;
  let font_obj := (ts_font st, ts_font_size st) in
  let wrapped_lines := wrap_text E text font_obj max_width_px in
  let wrapped_text := join nl_str wrapped_lines in
  let char_positions := get_character_positions wrapped_text font_obj (ts_line_spacing st) in
  Ok (make_frame base_img char_positions (ts_padding st) (ts_char_delay st)
        (ts_char_fade_duration st),
      (iw base_img, ih base_img)).

End Anim.

(* ------------------------------------------------------------------ *)
(** ** [process_reel_config] and [generate_reel_local] (handler.py) *)

(** The value of a key of an overlay dict: absent, a string, or another
    JSON value. *)
Inductive jfield :=
| JAbsent
| JStr (s : string)
| JOther.

(** The value of the [image_paths] key: absent, a list of strings, or
    another JSON value. *)
Inductive jpaths :=
| LAbsent
| LStrs (l : list string)
| LOther.

(** An entry of the [overlays] array of the reel configuration, by the
    keys the handler reads or writes; its other keys are carried along
    unchanged. *)
Record cfg_overlay := mk_cfg_overlay {
  co_type : jfield;
  co_text : jfield;
  co_image_path : jfield;
  co_image_paths : jpaths
}.

(** One overlay of the loop of [process_reel_config]: [overlay.get('type')
    == 'text' and 'text' in overlay]; a non-string text has no [split]. *)
Definition process_cfg_overlay (vars : template_vars) (o : cfg_overlay) : result cfg_overlay :=
  match co_type o with
  | JStr ty =>
      if String.eqb ty "text" then
        match co_text o with
        | JAbsent => Ok o
        | JStr s =>
            Ok (mk_cfg_overlay (co_type o) (JStr (evaluate_template_text s vars))
                  (co_image_path o) (co_image_paths o))
        | JOther => Err (AttributeError "split")
        end
      else Ok o
  | _ => Ok o
  end.

Fixpoint map_result {A B} (f : A -> result B) (l : list A) : result (list B) :=
  match l with
  | [] => Ok []
  | x :: xs => y <- f x ;; ys <- map_result f xs ;; Ok (y :: ys)
  end.

(** [process_reel_config] on the [overlays] list of the (deep-copied)
    configuration, [None] when the key is absent. *)
Definition process_reel_config (vars : template_vars) (overlays : option (list cfg_overlay))
  : result (option (list cfg_overlay)) :=
  match overlays with
  | None => Ok None
  | Some ovs => l <- map_result (process_cfg_overlay vars) ovs ;; Ok (Some l)
  end.

(** [overlay.get("type", "image") == name]. *)
Definition type_is (o : cfg_overlay) (name : string) : bool :=
  match co_type o with
  | JAbsent => String.eqb "image" name
  | JStr t => String.eqb t name
  | JOther => false
  end.

(** The loop of [generate_reel_local] that hands the images to the image
    overlays: an [image_stack] takes every image left, an [image] overlay
    the first one left; either is dropped when none is left; any other
    overlay is kept. *)
Fixpoint assign_images (overlays : list cfg_overlay) (available_images : list string)
  : list cfg_overlay :=
  match overlays with
  | [] => []
  | o :: rest =>
      if type_is o "image_stack" then
        match available_images with
        | [] => assign_images rest []
        | _ :: _ =>
            mk_cfg_overlay (co_type o) (co_text o) (co_image_path o) (LStrs available_images)
              :: assign_images rest []
        end
      else if type_is o "image" then
        match available_images with
        | [] => assign_images rest []
        | p :: available' =>
            mk_cfg_overlay (co_type o) (co_text o) (JStr p) (co_image_paths o)
              :: assign_images rest available'
        end
      else o :: assign_images rest available_images
  end.

(** [generate_reel_local]: the [overlays_with_images] it passes to
    [overlay_images_on_video], from [json.loads(reel_config_json).get(
    "overlays", [])]. *)
Definition generate_reel_local (image_paths : list string)
    (overlays : option (list cfg_overlay)) : list cfg_overlay :=
  assign_images (match overlays with Some l => l | None => [] end) image_paths.

(** The part of [handler] from the configuration to the compositor:
    [process_reel_config], then [generate_reel_local]. *)
Definition prepare_overlays (vars : template_vars) (image_paths : list string)
    (overlays : option (list cfg_overlay)) : result (list cfg_overlay) :=
  cfg <- process_reel_config vars overlays ;;
  Ok (generate_reel_local image_paths cfg).

(* ------------------------------------------------------------------ *)
(** ** Auxiliary definitions for the further properties *)

(** An overlay the image hand-out concerns: [image] or [image_stack]. *)
Definition takes_images (o : cfg_overlay) : bool :=
  type_is o "image" || type_is o "image_stack".

(** The images handed to the overlays of a list, in order. *)
Fixpoint handed (ovs : list cfg_overlay) : list string :=
  match ovs with
  | [] => []
  | o :: rest =>
      (if type_is o "image_stack" then
         match co_image_paths o with LStrs l => l | _ => [] end
       else if type_is o "image" then
         match co_image_path o with JStr p => [p] | _ => [] end
       else []) ++ handed rest
  end.

(** The number of [image] overlays of a list. *)
Definition count_image (ovs : list cfg_overlay) : nat :=
  length (filter (fun o => type_is o "image") ovs).

Definition no_stack (ovs : list cfg_overlay) : bool :=
  forallb (fun o => negb (type_is o "image_stack")) ovs.

(** Each channel of a colour is in [0..255]. *)
Definition rgba_byte (c : rgba) : Prop :=
  let '(c0, c1, c2, c3) := c in
  (0 <= c0 <= 255 /\ 0 <= c1 <= 255 /\ 0 <= c2 <= 255 /\ 0 <= c3 <= 255)%Z.

(** A colour tuple as a list of four ints. *)
Definition rgba_list (c : rgba) : list Z :=
  let '(r, g, b, a) := c in [r; g; b; a].

(** The number of clips the image part of an overlay yields. *)
Definition image_clip_count (E : backend) (ov : overlay) : nat :=
  match ov_image_path ov with
  | Some p => if path_exists E p then 1 else 0
  | None => 0
  end.

Definition text_clip_count (ov : overlay) : nat :=
  match ov_text ov with Some _ => 1 | None => 0 end.

Definition pos_char (p : char_pos) : ascii := let '(c, _, _, _, _) := p in c.

(** The characters of a string other than newlines. *)
Definition non_nl_chars (s : string) : list ascii :=
  filter (fun c => negb (Ascii.eqb c nl)) (list_ascii_of_string s).

(** [bbox[2] - bbox[0]] of one character in [_get_character_positions]. *)
Definition char_width (E : backend) (font : font_key) (c : ascii) : Z :=
  let '(b0, _, b2, _) := textbbox E font (String c EmptyString) 0 in (b2 - b0)%Z.

(** A lowercase hex digit, as [format(v, "x")] writes it. *)
Definition hex_digit (d : Z) : ascii :=
  if (d <? 10)%Z then ascii_of_nat (48 + Z.to_nat d) else ascii_of_nat (87 + Z.to_nat d).

(** [format(v, "02x")] for [0 <= v <= 255]. *)
Definition hex2 (v : Z) : string :=
  String (hex_digit (v / 16)) (String (hex_digit (v mod 16)) EmptyString).

Definition bytes_range : list Z := map Z.of_nat (seq 0 256).

(** The width [textbbox] measures for a line of [_wrap_text] (stripped, as
    the candidate lines are measured). *)
Definition line_width (E : backend) (font : font_key) (line : string) : Z :=
  let '(b0, _, b2, _) := textbbox E font (strip line) 0 in (b2 - b0)%Z.

Definition no_space (s : string) : Prop := ~ In " "%char (list_ascii_of_string s).

(** The overlay [ov] with its [position] key set to [pos]. *)
Definition ov_with_position (ov : overlay) (pos : position) : overlay :=
  mk_overlay (ov_type ov) (ov_start_time ov) (ov_duration ov) (ov_image_paths ov)
    (ov_rotation_range ov) pos (ov_width ov) (ov_height ov) (ov_bg_color ov)
    (ov_opacity ov) (ov_scale ov) (ov_fit_mode ov) (ov_rotation ov) (ov_image_path ov)
    (ov_text ov) (ov_text_position ov) (ov_text_style ov).

(** Overlay configurations for concrete runs of [generate_reel_local]. *)
Definition cfg_image : cfg_overlay := mk_cfg_overlay (JStr "image") JAbsent JAbsent LAbsent.
Definition cfg_stack : cfg_overlay := mk_cfg_overlay (JStr "image_stack") JAbsent JAbsent LAbsent.
Definition cfg_text : cfg_overlay :=
  mk_cfg_overlay (JStr "text") (JStr "Hi ${runner}") JAbsent LAbsent.
Definition cfg_untyped_text : cfg_overlay :=
  mk_cfg_overlay JAbsent (JStr "Hi ${runner}") JAbsent LAbsent.

(** A backend for concrete runs in which ["b.png"] does not exist. *)
Definition missing_backend : backend :=
  mk_backend
    (fun p => negb (String.eqb p "b.png"))
    (fun _ => image_new (100, 50)%Z (255, 255, 255, 255)%Z)
    (fun sz img => mk_image (fst sz) (snd sz) (px img))
    (fun _ _ img => img)
    (fun base _ _ => base)
    (fun _ _ _ => (0, 0, 0, 0)%Z)
    (fun img _ _ _ _ _ _ => img)
    (fun _ _ _ => 0).

(** A backend for concrete runs whose text boxes are 10 px wide per
    character and 20 px high. *)
Definition mono_backend : backend :=
  mk_backend
    (fun _ => true)
    (fun _ => image_new (100, 50)%Z (255, 255, 255, 255)%Z)
    (fun sz img => mk_image (fst sz) (snd sz) (px img))
    (fun _ _ img => img)
    (fun base _ _ => base)
    (fun _ s _ => (0, 0, 10 * Z.of_nat (String.length s), 20)%Z)
    (fun img _ _ _ _ _ _ => img)
    (fun _ _ _ => 0).

(** An image overlay with a text, from [0] to [1] s. *)
Definition image_text_overlay : overlay :=
  mk_overlay "image" 0 1 [] 10 (PStr "center") None None CNone 1 1 "contain" 0
    (Some "a.png") (Some "Hi") None default_text_style.



(** The default text style with character animation on. *)
Definition animated_style : text_style :=
  mk_text_style "DejaVuSans.ttf" 48 (CStr "#FFFFFF") (CStr "#000000") 0 CNone None
    10 "center" 6 true (15 # 100) (5 # 100) None.

Definition test_font : font_key := ("DejaVuSans.ttf", 48%Z).

(* ================================================================== *)
(** * Properties *)

(* ------------------------------------------------------------------ *)
(** ** Generic facts *)

Lemma bind_ok {A B} (a : A) (k : A -> result B) : bind (Ok a) k = k a.
Proof. reflexivity. Qed.

Lemma bind_err {A B} (e : exn) (k : A -> result B) : bind (Err e) k = Err e.
Proof. reflexivity. Qed.

Lemma bind_assoc {A B C} (m : result A) (k : A -> result B) (k' : B -> result C) :
  bind (bind m k) k' = bind m (fun a => bind (k a) k').
Proof. destruct m; reflexivity. Qed.

(** Steps through the binds of a successful computation. *)
Ltac ok_steps :=
  repeat match goal with
  | |- Err _ = Ok _ -> _ => let H := fresh in intros H; discriminate H
  | |- bind ?m _ = _ -> _ => destruct m; cbn [bind]
  | |- match ?p with _ => _ end = _ -> _ => destruct p; cbn [bind]
  end.

(** The overlay loop splits along its list. *)
Lemma process_from_app E vd vsize i l1 l2 :
  process_from E vd vsize i (l1 ++ l2)
  = (a <- process_from E vd vsize i l1 ;;
     b <- process_from E vd vsize (i + length l1) l2 ;;
     Ok (a ++ b)%list).
Proof.
  revert i; induction l1 as [|ov l1 IH]; intros i; simpl.
  - rewrite Nat.add_0_r. destruct (process_from E vd vsize i l2); reflexivity.
  - destruct (process_overlay E vd vsize i ov) as [a|e]; simpl; [|reflexivity].
    rewrite IH, Nat.add_succ_r.
    destruct (process_from E vd vsize (S i) l1) as [b|e]; simpl; [|reflexivity].
    destruct (process_from E vd vsize (S (i + length l1)) l2); simpl;
      [rewrite app_assoc|]; reflexivity.
Qed.

(* ------------------------------------------------------------------ *)
(** ** Position keywords (C3) *)

(** C3: a keyword position is resolved axis by axis, left/top -> 0,
    right/bottom -> container - content, center -> (container - content)
    // 2, for each of the nine keywords; in particular "center" gives
    ((W-w)//2, (H-h)//2) and "top-right" gives (W-w, 0). *)
Theorem get_position_keyword_axes :
  forall (k : keyword) (W H w h : Z),
    get_position (PStr (keyword_string k)) (W, H) (w, h)
      = Ok (spec_h_px (fst (spec_anchors k)) W w, spec_v_px (snd (spec_anchors k)) H h)
    /\ get_position (PStr "center") (W, H) (w, h) = Ok ((W - w) / 2, (H - h) / 2)%Z
    /\ get_position (PStr "top-right") (W, H) (w, h) = Ok (W - w, 0)%Z.
Proof.
  intros k W H w h.
  split; [|split]; [destruct k| |]; reflexivity.
Qed.

(* ------------------------------------------------------------------ *)
(** ** Numeric positions (C4) *)

(** C4, as stated, fails: with a 3-pixel container the ratio 0.5 lands on
    pixel 1 ([int(1.5)]), where [round(1.5)] is 2. *)
Lemma resolve_xy_round_counterexample :
  get_position (PSeq [1 # 2; 1 # 2]) (3, 3)%Z (1, 1)%Z = Ok (1, 1)%Z
  /\ py_round (inject_Z 3 * (1 # 2)) = 2%Z.
Proof. split; reflexivity. Qed.

(** C4 (amended): a numeric pair or an {x, y} dict is resolved axis by
    axis: [int(container * v)] (truncation toward zero) when [abs(v) <= 1],
    else [int(v)], the content size playing no part, so a negative pixel
    value stays an offset from the origin; the spec's two examples hold. *)
Theorem get_position_numeric_axes :
  forall (x y : Q) (W H w h : Z),
    get_position (PSeq [x; y]) (W, H) (w, h) = Ok (axis_trunc W x, axis_trunc H y)
    /\ get_position (PDict (Some x) (Some y)) (W, H) (w, h)
       = Ok (axis_trunc W x, axis_trunc H y)
    /\ get_position (PDict (Some (1 # 2)) (Some (1 # 2))) (200, 100)%Z (20, 10)%Z
       = Ok (100, 50)%Z
    /\ get_position (PDict (Some 30) (Some 5)) (200, 100)%Z (20, 10)%Z = Ok (30, 5)%Z
    /\ axis_trunc W (-(35 # 1)) = (-35)%Z.
Proof.
  intros x y W H w h.
  repeat split; reflexivity.
Qed.

(* ------------------------------------------------------------------ *)
(** ** Skipped overlays (C7) *)

(** C7: an overlay with [duration <= 0] or [start_time >= video_duration]
    adds no clip and raises nothing, and the overlays before and after it
    are processed as if it were absent (at their own list indices). *)
Theorem skipped_overlay_contributes_nothing :
  forall E vd vsize i pre ov post,
    (ov_duration ov <= 0 \/ vd <= ov_start_time ov)%Q ->
    process_overlay E vd vsize (i + length pre) ov = Ok []
    /\ process_from E vd vsize i (pre ++ ov :: post)
       = (a <- process_from E vd vsize i pre ;;
          b <- process_from E vd vsize (S (i + length pre)) post ;;
          Ok (a ++ b)%list).
Proof.
  intros E vd vsize i pre ov post Hskip.
  assert (Hov : forall j, process_overlay E vd vsize j ov = Ok []).
  { intros j. unfold process_overlay.
    destruct Hskip as [Hd | Hs].
    - apply Qle_bool_iff in Hd. rewrite Hd. reflexivity.
    - apply Qle_bool_iff in Hs. rewrite Hs.
      destruct (Qle_bool (ov_duration ov) 0); reflexivity. }
  split; [apply Hov|].
  rewrite process_from_app. simpl. rewrite Hov. simpl.
  destruct (process_from E vd vsize i pre) as [a|e]; simpl; [|reflexivity].
  destruct (process_from E vd vsize (S (i + length pre)) post); reflexivity.
Qed.

Lemma skipped_overlay_contributes_nothing_witness :
  (ov_duration default_overlay <= 0 \/ 5 <= ov_start_time default_overlay)%Q
  /\ process_overlay test_backend 5 (100, 100)%Z (0 + length [default_overlay]) default_overlay = Ok []
  /\ process_from test_backend 5 (100, 100)%Z 0 ([default_overlay] ++ default_overlay :: [])
     = (a <- process_from test_backend 5 (100, 100)%Z 0 [default_overlay] ;;
        b <- process_from test_backend 5 (100, 100)%Z (S (0 + length [default_overlay])) [] ;;
        Ok (a ++ b)%list).
Proof.
  assert (H : (ov_duration default_overlay <= 0 \/ 5 <= ov_start_time default_overlay)%Q)
    by (left; vm_compute; discriminate).
  split; [exact H|].
  exact (skipped_overlay_contributes_nothing test_backend 5 (100, 100)%Z 0
           [default_overlay] default_overlay [] H).
Defined.

(* ------------------------------------------------------------------ *)
(** ** Style errors (C2) *)

(** C2, as stated, fails: an overlay with the unknown keyword "middle", or
    a text overlay with the colour "#GGGGGG", makes the whole render raise
    (no output), even though the other overlay of the list is fine. *)
Lemma style_error_counterexample :
  overlay_images_on_video test_backend test_video
    [image_overlay "a.png" (PStr "middle") CNone;
     image_overlay "b.png" (PStr "center") CNone]
  = Err (ValueError "Invalid position")
  /\ overlay_images_on_video test_backend test_video
       [text_overlay "5K" (style_with_color (CStr "#GGGGGG"));
        image_overlay "b.png" (PStr "center") CNone]
     = Err (ValueError "invalid literal for int() with base 16").
Proof. split; vm_compute; reflexivity. Qed.

Lemma py_int16_cases (u : string) :
  (exists v, py_int16 u = Ok v)
  \/ py_int16 u = Err (ValueError "invalid literal for int() with base 16").
Proof.
  unfold py_int16.
  destruct (match strip u with
            | String "+" r => (false, r) | String "-" r => (true, r) | _ => (false, strip u)
            end) as [neg w].
  destruct (hex_body w); [left; eexists; reflexivity|right; reflexivity].
Qed.

(** C2 (amended): an exception raised while an overlay is processed is not
    caught: the loop stops and the render raises it, whatever follows in
    the list.  A bad position or colour raises when the code reads it: an
    unknown keyword raises [ValueError], a list or tuple of a length other
    than 2 or a value of another type [TypeError], and a colour string
    raises [ValueError] when its length, after stripping and dropping a
    leading [#], is neither 6 nor 8, or when one of its two-character
    fields is not a hex number.  A value the code does not read raises
    nothing: the image part of an overlay whose file does not exist yields
    nothing, and a single image overlay with a [bg_color] does not read
    its [position]. *)
Theorem overlay_error_propagates :
  forall E vd vsize i pre ov post ls e,
    process_from E vd vsize i pre = Ok ls ->
    process_overlay E vd vsize (i + length pre) ov = Err e ->
    process_from E vd vsize i (pre ++ ov :: post) = Err e
    /\ (forall s vs os, keyword_mapping (lower s) = None ->
          get_position (PStr s) vs os = Err (ValueError "Invalid position"))
    /\ (forall l vs os, length l <> 2%nat ->
          get_position (PSeq l) vs os = Err (TypeError "Unsupported position format"))
    /\ (forall vs os, get_position POther vs os = Err (TypeError "Unsupported position format"))
    /\ (forall s,
          let s1 := strip s in
          let t := match s1 with String "#" r => r | _ => s1 end in
          (String.length t =? 6)%nat = false -> (String.length t =? 8)%nat = false ->
          parse_hex_color (CStr s) = Err (ValueError "Unsupported color format"))
    /\ (forall s,
          let s1 := strip s in
          let t := match s1 with String "#" r => r | _ => s1 end in
          ((String.length t = 6)%nat /\
             exists k, (k < 3)%nat /\ is_ok (py_int16 (substring (2 * k) 2 t)) = false)
          \/ ((String.length t = 8)%nat /\
             exists k, (k < 4)%nat /\ is_ok (py_int16 (substring (2 * k) 2 t)) = false) ->
          parse_hex_color (CStr s) = Err (ValueError "invalid literal for int() with base 16"))
    /\ (forall ov' p, ov_image_path ov' = Some p -> path_exists E p = false ->
          image_layers E vsize ov' = Ok [])
    /\ (forall ov' pos, ov_bg_color ov' <> CNone ->
          image_layers E vsize (ov_with_position ov' pos) = image_layers E vsize ov').
Proof.
  intros E vd vsize i pre ov post ls e Hpre Hov.
  split; [|split; [|split; [|split; [|split; [|split; [|split]]]]]].
  - rewrite process_from_app, Hpre. simpl. rewrite Hov. reflexivity.
  - intros s [vw vh] [ow oh] Hk. simpl. rewrite Hk. reflexivity.
  - intros l [vw vh] [ow oh] Hl. simpl.
    destruct l as [|x [|y [|z l]]]; try reflexivity. simpl in Hl. congruence.
  - intros [vw vh] [ow oh]. reflexivity.
  - intros s. cbv zeta. intros H6 H8.
    unfold parse_hex_color. cbv zeta. rewrite H6, H8. reflexivity.
  - intros s. cbv zeta. intros Hbad.
    unfold parse_hex_color. cbv zeta.
    set (t := match strip s with String "#" r => r | _ => strip s end) in *.
    destruct Hbad as [[H6 [k [Hk Hbad]]]|[H8 [k [Hk Hbad]]]].
    + rewrite H6. cbn [Nat.eqb].
      destruct (py_int16_cases (substring 0 2 t)) as [[r Hr]|Hr]; rewrite Hr; cbn [bind];
        [|reflexivity].
      destruct (py_int16_cases (substring 2 2 t)) as [[g Hg]|Hg]; rewrite Hg; cbn [bind];
        [|reflexivity].
      destruct (py_int16_cases (substring 4 2 t)) as [[b Hb]|Hb]; rewrite Hb; cbn [bind];
        [|reflexivity].
      exfalso. destruct k as [|[|[|k]]]; cbn [Nat.mul Nat.add] in Hbad;
        [rewrite Hr in Hbad|rewrite Hg in Hbad|rewrite Hb in Hbad|lia]; discriminate.
    + rewrite H8. cbn [Nat.eqb].
      destruct (py_int16_cases (substring 0 2 t)) as [[r Hr]|Hr]; rewrite Hr; cbn [bind];
        [|reflexivity].
      destruct (py_int16_cases (substring 2 2 t)) as [[g Hg]|Hg]; rewrite Hg; cbn [bind];
        [|reflexivity].
      destruct (py_int16_cases (substring 4 2 t)) as [[b Hb]|Hb]; rewrite Hb; cbn [bind];
        [|reflexivity].
      destruct (py_int16_cases (substring 6 2 t)) as [[a Ha]|Ha]; rewrite Ha; cbn [bind];
        [|reflexivity].
      exfalso. destruct k as [|[|[|[|k]]]]; cbn [Nat.mul Nat.add] in Hbad;
        [rewrite Hr in Hbad|rewrite Hg in Hbad|rewrite Hb in Hbad|rewrite Ha in Hbad|lia];
        discriminate.
  - intros ov' p Hp Hx. unfold image_layers. rewrite Hp, Hx. reflexivity.
  - intros ov' pos Hbg. destruct ov'. unfold image_layers, ov_with_position. cbn - [get_position transform_image override_image].
    simpl in Hbg. destruct ov_bg_color0; [congruence|reflexivity|reflexivity].
Qed.

Lemma overlay_error_propagates_witness :
  process_from test_backend 10 (100, 100)%Z 0 [] = Ok []
  /\ process_overlay test_backend 10 (100, 100)%Z (0 + length (@nil overlay))
       (image_overlay "a.png" (PStr "middle") CNone) = Err (ValueError "Invalid position")
  /\ process_from test_backend 10 (100, 100)%Z 0
       ([] ++ image_overlay "a.png" (PStr "middle") CNone :: [default_overlay])
     = Err (ValueError "Invalid position")
  /\ parse_hex_color (CStr "#12zz56") = Err (ValueError "invalid literal for int() with base 16")
  /\ image_layers test_backend (100, 100)%Z
       (ov_with_position (image_overlay "a.png" (PStr "center") (CStr "#ffffff")) (PStr "middle"))
     = image_layers test_backend (100, 100)%Z
         (image_overlay "a.png" (PStr "center") (CStr "#ffffff"))
  /\ image_layers missing_backend (100, 100)%Z
       (image_overlay "b.png" (PStr "middle") CNone) = Ok [].
Proof.
  assert (H1 : process_from test_backend 10 (100, 100)%Z 0 [] = Ok []) by reflexivity.
  assert (H2 : process_overlay test_backend 10 (100, 100)%Z (0 + length (@nil overlay))
                 (image_overlay "a.png" (PStr "middle") CNone)
               = Err (ValueError "Invalid position")) by (vm_compute; reflexivity).
  split; [exact H1|split; [exact H2|split]].
  exact (proj1 (overlay_error_propagates test_backend 10 (100, 100)%Z 0 []
                  (image_overlay "a.png" (PStr "middle") CNone) [default_overlay] []
                  (ValueError "Invalid position") H1 H2)).
  destruct (overlay_error_propagates test_backend 10 (100, 100)%Z 0 []
              (image_overlay "a.png" (PStr "middle") CNone) [default_overlay] []
              (ValueError "Invalid position") H1 H2)
    as [_ [_ [_ [_ [_ [Hhex [_ Hbg]]]]]]].
  split; [|split].
  - apply (Hhex "#12zz56"). left. split; [vm_compute; reflexivity|].
    exists 1%nat. split; [lia|vm_compute; reflexivity].
  - apply Hbg. simpl. discriminate.
  - destruct (overlay_error_propagates missing_backend 10 (100, 100)%Z 0 []
                (image_overlay "a.png" (PStr "middle") CNone) [] []
                (ValueError "Invalid position") ltac:(reflexivity)
                ltac:(vm_compute; reflexivity))
      as [_ [_ [_ [_ [_ [_ [Hmiss' _]]]]]]].
    apply (Hmiss' _ "b.png"); vm_compute; reflexivity.
Defined.

(* ------------------------------------------------------------------ *)
(** ** Timing of an image stack (C1) *)

Lemma stack_image_timing E vsize i ov ti k p l :
  stack_image E vsize i ov ti k p = Ok l ->
  layer_timing l = (ov_start_time ov + inject_Z (Z.of_nat k) * ti,
                    ov_duration ov - inject_Z (Z.of_nat k) * ti).
Proof.
  unfold stack_image.
  destruct (transform_image _ _ _ _ _) as [img0|e]; simpl; [|discriminate].
  destruct (fit_image _ _ _ _ _ _) as [img|e]; simpl; [|discriminate].
  match goal with
  | |- bind ?m _ = _ -> _ => destruct m as [img'|e]; simpl; [|discriminate]
  end.
  match goal with
  | |- bind ?m _ = _ -> _ => destruct m as [pos|e]; simpl; [|discriminate]
  end.
  intros H; injection H as <-. reflexivity.
Qed.

Lemma stack_loop_timings E vsize i ov ti paths :
  forallb (path_exists E) paths = true ->
  forall k ls, stack_loop E vsize i ov ti k paths = Ok ls ->
  map layer_timing ls
  = map (fun j => (ov_start_time ov + inject_Z (Z.of_nat j) * ti,
                   ov_duration ov - inject_Z (Z.of_nat j) * ti))
        (seq k (length paths)).
Proof.
  induction paths as [|p ps IH]; intros Hex k ls H; simpl in *.
  - injection H as <-. reflexivity.
  - apply andb_true_iff in Hex as [Hp Hps].
    rewrite Hp in H.
    destruct (stack_image E vsize i ov ti k p) as [l|e] eqn:Hl; simpl in H; [|discriminate].
    destruct (stack_loop E vsize i ov ti (S k) ps) as [ls'|e] eqn:Hls; simpl in H;
      [|discriminate].
    injection H as <-. simpl.
    rewrite (stack_image_timing _ _ _ _ _ _ _ _ Hl), (IH Hps (S k) ls' Hls).
    reflexivity.
Qed.

(** C1: in an [image_stack] of N images that all exist, the clips made
    for them are one per image, in order, image [i] starting at
    [s + i * (d / N)] and lasting [d - i * (d / N)]; for s = 10, d = 9,
    N = 3 these are 10, 13, 16 and 9, 6, 3.  (The branch is entered once
    the [duration] / [start_time] checks have passed; a style error in it
    raises instead, see C2.) *)
Theorem image_stack_timings :
  forall E vsize i ov ls,
    forallb (path_exists E) (ov_image_paths ov) = true ->
    image_stack_layers E vsize i ov = Ok ls ->
    map layer_timing ls
    = map (spec_stack_timing (ov_start_time ov) (ov_duration ov)
             (length (ov_image_paths ov)))
          (seq 0 (length (ov_image_paths ov)))
    /\ map (fun '(a, b) => (Qred a, Qred b)) (map (spec_stack_timing 10 9 3) (seq 0 3))
       = [(10, 9); (13, 6); (16, 3)].
Proof.
  intros E vsize i ov ls Hex H.
  split; [|reflexivity].
  unfold image_stack_layers in H.
  destruct (ov_image_paths ov) as [|p ps] eqn:Hp.
  - injection H as <-. reflexivity.
  - rewrite <- Hp in H, Hex |- *.
    apply (stack_loop_timings E vsize i ov _ _ Hex 0 ls H).
Qed.

Lemma image_stack_timings_witness :
  exists ls,
    forallb (path_exists test_backend) (ov_image_paths stack_overlay) = true
    /\ image_stack_layers test_backend (100, 100)%Z 0 stack_overlay = Ok ls
    /\ map layer_timing ls
       = map (spec_stack_timing 10 9 3) (seq 0 3).
Proof.
  eexists. split; [reflexivity|]. split; [vm_compute; reflexivity|].
  exact (proj1 (image_stack_timings test_backend (100, 100)%Z 0 stack_overlay _
                  eq_refl (eq_refl _))).
Defined.


(* ------------------------------------------------------------------ *)
(** ** [int()] truncation *)

Lemma Qfloor_nonneg (q : Q) : 0 <= q -> (0 <= Qfloor q)%Z.
Proof. intros H. apply (Qfloor_resp_le 0 q) in H. exact H. Qed.

Lemma py_int_compat (a b : Q) : a == b -> py_int a = py_int b.
Proof.
  intros H. unfold py_int.
  destruct (Qle_bool 0 a) eqn:Ha, (Qle_bool 0 b) eqn:Hb.
  - apply Qfloor_comp. exact H.
  - apply Qle_bool_iff in Ha. rewrite H in Ha. apply Qle_bool_iff in Ha. congruence.
  - apply Qle_bool_iff in Hb. rewrite <- H in Hb. apply Qle_bool_iff in Hb. congruence.
  - f_equal. apply Qfloor_comp. rewrite H. reflexivity.
Qed.

Lemma py_int_inject (z : Z) : py_int (inject_Z z) = z.
Proof.
  unfold py_int. destruct (Qle_bool 0 (inject_Z z)).
  - apply Qfloor_Z.
  - change (- inject_Z z) with (inject_Z (- z)). rewrite Qfloor_Z. lia.
Qed.

Lemma py_int_mono (a b : Q) : a <= b -> (py_int a <= py_int b)%Z.
Proof.
  intros H. unfold py_int.
  destruct (Qle_bool 0 a) eqn:Ha, (Qle_bool 0 b) eqn:Hb.
  - apply Qfloor_resp_le. exact H.
  - apply Qle_bool_iff in Ha.
    assert (0 <= b) by (apply Qle_trans with a; assumption).
    apply Qle_bool_iff in H0. congruence.
  - assert (Ha' : ~ 0 <= a) by (intros C; apply Qle_bool_iff in C; congruence).
    apply Qnot_le_lt in Ha'.
    apply Qle_bool_iff in Hb.
    assert (0 <= - a).
    { apply Qlt_le_weak in Ha'. apply Qopp_le_compat in Ha'. exact Ha'. }
    pose proof (Qfloor_nonneg _ H0). pose proof (Qfloor_nonneg _ Hb). lia.
  - apply Qopp_le_compat in H. apply Qfloor_resp_le in H. lia.
Qed.

Lemma inject_Z_pos (z : Z) : (0 < z)%Z -> 0 < inject_Z z.
Proof. intros H. unfold Qlt. simpl. lia. Qed.

Lemma py_min_le_l (a b : Q) : py_min a b <= a.
Proof.
  unfold py_min, Qltb. destruct (Qle_bool a b) eqn:E; simpl.
  - apply Qle_refl.
  - assert (~ a <= b) by (intros C; apply Qle_bool_iff in C; congruence).
    apply Qlt_le_weak, Qnot_le_lt. exact H.
Qed.

Lemma py_min_le_r (a b : Q) : py_min a b <= b.
Proof.
  unfold py_min, Qltb. destruct (Qle_bool a b) eqn:E; simpl.
  - apply Qle_bool_iff. exact E.
  - apply Qle_refl.
Qed.

(** [int(c * f) <= t] when [f <= t / c] and [c > 0]. *)
Lemma scaled_le_target (c t : Z) (f : Q) :
  (0 < c)%Z -> f <= inject_Z t / inject_Z c -> (py_int (inject_Z c * f) <= t)%Z.
Proof.
  intros Hc Hf.
  rewrite <- (py_int_inject t).
  rewrite <- (py_int_compat _ _ (Qmult_div_r (inject_Z t) (inject_Z c)
                                   ltac:(apply Qnot_eq_sym, Qlt_not_eq, inject_Z_pos, Hc))).
  apply py_int_mono. apply Qmult_le_l; [apply inject_Z_pos, Hc | exact Hf].
Qed.

Lemma py_int_between (lo hi : Z) (q : Q) :
  inject_Z lo <= q -> q <= inject_Z hi -> (lo <= py_int q <= hi)%Z.
Proof.
  intros H1 H2. split.
  - rewrite <- (py_int_inject lo). apply py_int_mono, H1.
  - rewrite <- (py_int_inject hi). apply py_int_mono, H2.
Qed.

(* ------------------------------------------------------------------ *)
(** ** Pillow's resize *)

Lemma pil_resize_size E sz img out : pil_resize E sz img = Ok out -> size out = sz.
Proof.
  unfold pil_resize.
  destruct ((fst sz =? iw img) && (snd sz =? ih img))%Z eqn:H1.
  - intros Hk. injection Hk as <-. apply andb_true_iff in H1 as [H1 H2].
    apply Z.eqb_eq in H1, H2. destruct sz. unfold size. simpl in *. congruence.
  - destruct (_ || _)%bool; [discriminate|].
    intros Hk. injection Hk as <-. destruct sz. reflexivity.
Qed.

Lemma pil_resize_ok E sz img :
  (1 <= fst sz)%Z -> (1 <= snd sz)%Z -> exists out, pil_resize E sz img = Ok out.
Proof.
  intros H1 H2. unfold pil_resize.
  destruct (_ && _)%bool; [eexists; reflexivity|].
  replace ((fst sz <? 1) || (snd sz <? 1))%Z with false
    by (symmetry; apply orb_false_iff; split; apply Z.ltb_ge; lia).
  eexists; reflexivity.
Qed.

Lemma pil_resize_err E sz img :
  (fst sz < 1 \/ snd sz < 1)%Z -> sz <> size img ->
  pil_resize E sz img = Err (ValueError "height and width must be > 0").
Proof.
  intros H1 H2. unfold pil_resize.
  replace ((fst sz =? iw img) && (snd sz =? ih img))%Z with false.
  - replace ((fst sz <? 1) || (snd sz <? 1))%Z with true; [reflexivity|].
    symmetry. apply orb_true_iff. destruct H1; [left|right]; apply Z.ltb_lt; exact H.
  - symmetry. apply andb_false_iff.
    destruct (Z.eq_dec (fst sz) (iw img)) as [Ew|Ew].
    + right. apply Z.eqb_neq. intros Eh. apply H2. destruct sz. unfold size. simpl in *. congruence.
    + left. apply Z.eqb_neq. exact Ew.
Qed.

(* ------------------------------------------------------------------ *)
(** ** The image transform (C5) *)

(** C5, as stated, fails in two ways: a small [scale] does not resize,
    it raises (scale 0.001 on a 100x50 image asks Pillow for 0x0), and a
    negative opacity does not multiply the alpha: alpha 128 under opacity
    -1 becomes 0, not [int(128 * -1) = -128], since Pillow clips the
    table of [point] to [0..255]. *)
Lemma transform_image_counterexample :
  transform_image test_backend "a.png" (1 # 1000) 0 1
  = Err (ValueError "height and width must be > 0")
  /\ px (open_rgba half_alpha_backend "a.png") 0 0 = (255, 255, 255, 128)%Z
  /\ match transform_image half_alpha_backend "a.png" 1 0 (-1) with
     | Ok img => px img 0 0 = (255, 255, 255, 0)%Z
     | Err _ => False
     end
  /\ py_int (inject_Z 128 * (-1)) = (-128)%Z.
Proof. split; [|split; [|split]]; vm_compute; reflexivity. Qed.

(** C5 (amended): [transform_image] opens the image, then, when
    [scale != 1.0], resizes it to [(int(w*scale), int(h*scale))], raising
    [ValueError] when one of these is below 1 (unless the size is
    unchanged); then, when [rotation != 0], rotates the result by
    [-rotation] with an expanded, fully transparent fill; then, when
    [opacity < 1.0], maps the alpha [a] of every pixel of that image to
    [int(a * opacity)] clipped to [0..255], colour and size unchanged.
    For [0 <= opacity < 1] and an alpha in [0..255] this is
    [int(a * opacity)], so alpha 128 under opacity 0.5 becomes 64 and
    alpha 0 stays 0; a negative opacity makes every alpha 0. *)
Theorem transform_image_steps :
  forall E image_path scale rotation opacity,
    let img0 := open_rgba E image_path in
    let sz := (py_int (inject_Z (iw img0) * scale), py_int (inject_Z (ih img0) * scale)) in
    (Qneqb scale 1 = true -> (fst sz < 1 \/ snd sz < 1)%Z -> sz <> size img0 ->
       transform_image E image_path scale rotation opacity
       = Err (ValueError "height and width must be > 0"))
    /\ (Qneqb scale 1 = true -> (1 <= fst sz)%Z -> (1 <= snd sz)%Z ->
          exists img1, pil_resize E sz img0 = Ok img1)
    /\ (forall img1,
          (if Qneqb scale 1 then pil_resize E sz img0 else Ok img0) = Ok img1 ->
          let img2 := if Qneqb rotation 0 then rotate E (- rotation) transparent img1
                      else img1 in
          size img1 = (if Qneqb scale 1 then sz else size img0)
          /\ exists out,
               transform_image E image_path scale rotation opacity = Ok out
               /\ size out = size img2
               /\ forall x y,
                    px out x y
                    = let '(r, g, b, a) := px img2 x y in
                      (r, g, b, if Qltb opacity 1
                                then clip8 (py_int (inject_Z a * opacity)) else a))
    /\ (forall (a : Z) (o : Q), (0 <= a <= 255)%Z -> 0 <= o -> o < 1 ->
          clip8 (py_int (inject_Z a * o)) = py_int (inject_Z a * o))
    /\ (forall (a : Z) (o : Q), (0 <= a)%Z -> o < 0 -> clip8 (py_int (inject_Z a * o)) = 0%Z)
    /\ clip8 (py_int (inject_Z 128 * (1 # 2))) = 64%Z
    /\ (forall o : Q, clip8 (py_int (inject_Z 0 * o)) = 0%Z).
Proof.
  intros E image_path scale rotation opacity img0 sz.
  split; [|split; [|split; [|split; [|split; [|split]]]]].
  - intros Hs H1 H2. unfold transform_image. fold img0. rewrite Hs.
    fold sz. rewrite (pil_resize_err E sz img0 H1 H2). reflexivity.
  - intros _ H1 H2. apply pil_resize_ok; assumption.
  - intros img1 H1 img2. split.
    + destruct (Qneqb scale 1).
      * exact (pil_resize_size _ _ _ _ H1).
      * injection H1 as <-. reflexivity.
    + unfold transform_image. fold img0. fold sz. rewrite H1. simpl. fold img2.
      eexists. split; [reflexivity|]. split.
      * destruct (Qltb opacity 1); reflexivity.
      * intros x y. destruct (Qltb opacity 1); simpl;
          destruct (px img2 x y) as [[[r g] b] a]; reflexivity.
  - intros a o Ha Ho0 Ho1.
    assert (Ha' : 0 <= inject_Z a) by (change 0 with (inject_Z 0); rewrite <- Zle_Qle; lia).
    assert (Ha'' : inject_Z a <= inject_Z 255) by (rewrite <- Zle_Qle; lia).
    assert (B : (0 <= py_int (inject_Z a * o) <= 255)%Z).
    { apply py_int_between.
      - change (inject_Z 0) with 0. apply Qmult_le_0_compat; assumption.
      - apply Qle_trans with (inject_Z a * 1); [|rewrite Qmult_1_r; exact Ha''].
        apply Qmult_le_compat_nonneg; split; [exact Ha'|apply Qle_refl|exact Ho0|apply Qlt_le_weak; exact Ho1]. }
    unfold clip8. lia.
  - intros a o Ha Ho.
    assert (Ha' : 0 <= inject_Z a) by (change 0 with (inject_Z 0); rewrite <- Zle_Qle; lia).
    assert (B : (py_int (inject_Z a * o) <= 0)%Z).
    { rewrite <- (py_int_inject 0). apply py_int_mono. change (inject_Z 0) with 0.
      assert (inject_Z a * o == - (inject_Z a * - o)) by ring.
      rewrite H. apply (Qopp_le_compat 0). apply Qmult_le_0_compat; [exact Ha'|].
      apply (Qopp_le_compat o 0). apply Qlt_le_weak. exact Ho. }
    unfold clip8. lia.
  - reflexivity.
  - intros [n d]. reflexivity.
Qed.

Lemma transform_image_steps_witness :
  transform_image test_backend "a.png" (1 # 1000) 0 1
  = Err (ValueError "height and width must be > 0")
  /\ exists out,
       transform_image half_alpha_backend "a.png" (1 # 2) 0 (1 # 2) = Ok out
       /\ size out = (50, 25)%Z
       /\ px out 0 0 = (255, 255, 255, 64)%Z.
Proof.
  split.
  - pose proof (transform_image_steps test_backend "a.png" (1 # 1000) 0 1) as T.
    cbv zeta in T. destruct T as [T1 _].
    apply T1; [vm_compute; reflexivity|left; vm_compute; reflexivity|vm_compute; discriminate].
  - pose proof (transform_image_steps half_alpha_backend "a.png" (1 # 2) 0 (1 # 2)) as T.
    cbv zeta in T. destruct T as [_ [_ [T3 _]]].
    destruct (T3 (mk_image 50 25 (px (open_rgba half_alpha_backend "a.png"))))
      as [_ [out [Ho [Hs Hp]]]]; [vm_compute; reflexivity|].
    exists out. split; [exact Ho|]. split.
    + rewrite Hs. vm_compute. reflexivity.
    + rewrite Hp. vm_compute. reflexivity.
Defined.

(* ------------------------------------------------------------------ *)
(** ** Fit modes (C6) *)

(** C6, as stated, fails for a single image overlay: it ignores
    [fit_mode], so under "contain" a 100x50 image asked into a 200x200 box
    comes out 200x200, where the scale factor [min(200/100, 200/50) = 2]
    with the aspect ratio kept gives 200x100. *)
Lemma fit_mode_plain_image_counterexample :
  match image_layers test_backend (200, 200)%Z contain_image_overlay with
  | Ok [l] => size (l_image l) = (200, 200)%Z
  | _ => False
  end
  /\ ov_fit_mode contain_image_overlay = "contain"
  /\ (py_int (inject_Z 100 * py_min (inject_Z 200 / inject_Z 100) (inject_Z 200 / inject_Z 50)),
      py_int (inject_Z 50 * py_min (inject_Z 200 / inject_Z 100) (inject_Z 200 / inject_Z 50)))
     = (200, 100)%Z.
Proof. split; [|split]; vm_compute; reflexivity. Qed.

Lemma crop_size (l t w h : Z) (img out : image) :
  crop (l, t, l + w, t + h)%Z img = Ok out -> size out = (w, h).
Proof.
  unfold crop. destruct (_ || _)%bool; [discriminate|].
  intros H. injection H as <-. unfold size. simpl. f_equal; lia.
Qed.

Lemma crop_ok (l t w h : Z) (img : image) :
  (0 <= w)%Z -> (0 <= h)%Z -> exists out, crop (l, t, l + w, t + h)%Z img = Ok out.
Proof.
  intros Hw Hh. unfold crop.
  replace ((l + w <? l) || (t + h <? t))%Z with false
    by (symmetry; apply orb_false_iff; split; apply Z.ltb_ge; lia).
  eexists; reflexivity.
Qed.

(** C6 (amended): with both target sizes [tw], [th] given and a non-empty
    source image of [w x h], an [image_stack] image under "contain" is
    resized by [f = min(tw/w, th/h)] to [(int(w*f), int(h*f))], which
    never exceeds the box; the resize succeeds when both are at least 1
    and raises [ValueError] otherwise.  Under "cover", with
    [g = max(tw/w, th/h)], a result is always exactly [tw x th]; there is
    one when [tw, th >= 0] and [int(w*g), int(h*g) >= 1], and the resize
    raises [ValueError] when one of these is below 1.  A single image
    overlay ignores [fit_mode]: its result is exactly [tw x th], there is
    one when [tw, th >= 1], and [ValueError] is raised when one is below
    1. *)
Theorem fit_mode_box :
  forall E vsize wr hr img,
    (0 < iw img)%Z -> (0 < ih img)%Z ->
    let tw := target_dim (fst vsize) wr in
    let th := target_dim (snd vsize) hr in
    let f := py_min (inject_Z tw / inject_Z (iw img)) (inject_Z th / inject_Z (ih img)) in
    let g := py_max (inject_Z tw / inject_Z (iw img)) (inject_Z th / inject_Z (ih img)) in
    let csz := (py_int (inject_Z (iw img) * f), py_int (inject_Z (ih img) * f)) in
    let vsz := (py_int (inject_Z (iw img) * g), py_int (inject_Z (ih img) * g)) in
    ((fst csz <= tw)%Z /\ (snd csz <= th)%Z)
    /\ (forall out, fit_image E vsize (Some wr) (Some hr) "contain" img = Ok out ->
          size out = csz)
    /\ ((1 <= fst csz)%Z -> (1 <= snd csz)%Z ->
          exists out, fit_image E vsize (Some wr) (Some hr) "contain" img = Ok out)
    /\ ((fst csz < 1 \/ snd csz < 1)%Z ->
          fit_image E vsize (Some wr) (Some hr) "contain" img
          = Err (ValueError "height and width must be > 0"))
    /\ (forall out, fit_image E vsize (Some wr) (Some hr) "cover" img = Ok out ->
          size out = (tw, th))
    /\ ((0 <= tw)%Z -> (0 <= th)%Z -> (1 <= fst vsz)%Z -> (1 <= snd vsz)%Z ->
          exists out, fit_image E vsize (Some wr) (Some hr) "cover" img = Ok out)
    /\ ((fst vsz < 1 \/ snd vsz < 1)%Z ->
          fit_image E vsize (Some wr) (Some hr) "cover" img
          = Err (ValueError "height and width must be > 0"))
    /\ (forall out, override_image E vsize (Some wr) (Some hr) img = Ok out ->
          size out = (tw, th))
    /\ ((1 <= tw)%Z -> (1 <= th)%Z ->
          exists out, override_image E vsize (Some wr) (Some hr) img = Ok out)
    /\ ((tw < 1 \/ th < 1)%Z ->
          override_image E vsize (Some wr) (Some hr) img
          = Err (ValueError "height and width must be > 0")).
Proof.
  intros E vsize wr hr img Hw Hh tw th f g csz vsz.
  assert (Hw0 : (iw img =? 0)%Z = false) by (apply Z.eqb_neq; lia).
  assert (Hh0 : (ih img =? 0)%Z = false) by (apply Z.eqb_neq; lia).
  assert (Hc : fit_image E vsize (Some wr) (Some hr) "contain" img = pil_resize E csz img).
  { unfold fit_image, fit_contain, int_div. cbv beta iota zeta. rewrite Hw0, Hh0. reflexivity. }
  assert (Hv : fit_image E vsize (Some wr) (Some hr) "cover" img
               = (img' <- pil_resize E vsz img ;;
                  crop ((fst vsz - tw) / 2, (snd vsz - th) / 2,
                        (fst vsz - tw) / 2 + tw, (snd vsz - th) / 2 + th)%Z img')).
  { unfold fit_image, int_div. cbv beta iota zeta. rewrite Hw0, Hh0. reflexivity. }
  assert (Ho : override_image E vsize (Some wr) (Some hr) img = pil_resize E (tw, th) img)
    by reflexivity.
  assert (Hne : forall sz : Z * Z, (fst sz < 1 \/ snd sz < 1)%Z -> sz <> size img).
  { intros [a b] Hab Heq. unfold size in Heq. injection Heq as -> ->. simpl in Hab. lia. }
  split; [|split; [|split; [|split; [|split; [|split; [|split; [|split; [|split]]]]]]]].
  - split.
    + apply scaled_le_target; [exact Hw | apply py_min_le_l].
    + apply scaled_le_target; [exact Hh | apply py_min_le_r].
  - intros out H. rewrite Hc in H. exact (pil_resize_size _ _ _ _ H).
  - intros H1 H2. rewrite Hc. apply pil_resize_ok; assumption.
  - intros H. rewrite Hc. apply pil_resize_err; [exact H|apply Hne, H].
  - intros out H. rewrite Hv in H.
    destruct (pil_resize E vsz img) as [img'|e]; simpl in H; [|discriminate].
    exact (crop_size _ _ _ _ _ _ H).
  - intros H1 H2 H3 H4. rewrite Hv.
    destruct (pil_resize_ok E vsz img H3 H4) as [img' Hr]. rewrite Hr. simpl.
    apply crop_ok; assumption.
  - intros H. rewrite Hv, (pil_resize_err E vsz img H (Hne _ H)). reflexivity.
  - intros out H. rewrite Ho in H. exact (pil_resize_size _ _ _ _ H).
  - intros H1 H2. rewrite Ho. apply pil_resize_ok; assumption.
  - intros H. rewrite Ho. apply pil_resize_err; [exact H|apply Hne, H].
Qed.

Lemma fit_mode_box_witness :
  (0 < iw (image_new (100, 50)%Z transparent))%Z
  /\ (0 < ih (image_new (100, 50)%Z transparent))%Z
  /\ exists out,
       fit_image test_backend (200, 200)%Z (Some 1) (Some 1) "contain"
         (image_new (100, 50)%Z transparent) = Ok out
       /\ size out = (200, 100)%Z.
Proof.
  assert (H1 : (0 < iw (image_new (100, 50)%Z transparent))%Z) by (simpl; lia).
  assert (H2 : (0 < ih (image_new (100, 50)%Z transparent))%Z) by (simpl; lia).
  split; [exact H1|split; [exact H2|]].
  destruct (fit_mode_box test_backend (200, 200)%Z 1 1 (image_new (100, 50)%Z transparent) H1 H2)
    as (_ & Hs & Hok & _).
  destruct Hok as [out Hout]; [apply Z.leb_le; vm_compute; reflexivity
                              |apply Z.leb_le; vm_compute; reflexivity|].
  exists out. split; [exact Hout|]. rewrite (Hs out Hout). vm_compute. reflexivity.
Defined.


(* ------------------------------------------------------------------ *)
(** ** Empty text (C10) *)





(* ------------------------------------------------------------------ *)
(** ** Strings, lines and the placeholder scan *)

Lemma append_nil_r (s : string) : (s ++ "")%string = s.
Proof. induction s as [|c s IH]; simpl; [reflexivity|rewrite IH; reflexivity]. Qed.

Lemma append_assoc_str (a b c : string) : ((a ++ b) ++ c)%string = (a ++ (b ++ c))%string.
Proof. induction a as [|x a IH]; simpl; [reflexivity|rewrite IH; reflexivity]. Qed.

Lemma split_on_not_nil (sep : ascii) (s : string) : split_on sep s <> [].
Proof.
  destruct s as [|c r]; simpl; [discriminate|].
  destruct (Ascii.eqb c sep); [discriminate|].
  destruct (split_on sep r); discriminate.
Qed.

Lemma join_cons_char (sep : string) (c : ascii) (p : string) (ps : list string) :
  join sep (String c p :: ps) = String c (join sep (p :: ps)).
Proof. destruct ps; reflexivity. Qed.

(** Joining the lines back gives the text. *)
Lemma join_split_nl (s : string) : join nl_str (split_on nl s) = s.
Proof.
  induction s as [|c r IH]; [reflexivity|].
  simpl. destruct (Ascii.eqb c nl) eqn:Hc.
  - apply Ascii.eqb_eq in Hc. subst c.
    destruct (split_on nl r) as [|p ps] eqn:Hs; [exfalso; eapply split_on_not_nil; eauto|].
    simpl. rewrite <- IH. reflexivity.
  - destruct (split_on nl r) as [|p ps] eqn:Hs; [exfalso; eapply split_on_not_nil; eauto|].
    rewrite join_cons_char, IH. reflexivity.
Qed.

(** A newline ends any match attempt. *)
Lemma find_vars_nl (st : scan_state) (a b : string) :
  find_vars_from st (a ++ String nl b) = (find_vars_from st a ++ find_vars_from Idle b)%list.
Proof.
  revert st; induction a as [|c r IH]; intros st.
  - destruct st; reflexivity.
  - destruct st; simpl;
      repeat match goal with
             | |- context [if ?x then _ else _] => destruct x
             end;
      rewrite ?IH; reflexivity.
Qed.

Lemma find_vars_join (xs : list string) :
  xs <> [] -> find_vars (join nl_str xs) = concat (map find_vars xs).
Proof.
  induction xs as [|x xs IH]; intros Hne; [congruence|].
  destruct xs as [|y ys].
  - simpl. rewrite app_nil_r. reflexivity.
  - change (join nl_str (x :: y :: ys)) with (x ++ String nl (join nl_str (y :: ys)))%string.
    unfold find_vars at 1. rewrite find_vars_nl. fold (find_vars x).
    fold (find_vars (join nl_str (y :: ys))). rewrite IH by discriminate. reflexivity.
Qed.

Lemma evaluate_line_no_vars (vars : template_vars) (line : string) :
  find_vars line = [] -> evaluate_line vars line = Some line.
Proof. intros H. unfold evaluate_line. rewrite H. reflexivity. Qed.

(* ------------------------------------------------------------------ *)
(** ** Placeholder-free text (C9) *)

(** C9: a text in which the placeholder pattern [${name}] matches nowhere
    comes back unchanged, whatever the variables. *)
Theorem evaluate_template_text_no_placeholder :
  forall (text : string) (vars : template_vars),
    find_vars text = [] -> evaluate_template_text text vars = text.
Proof.
  intros text vars H.
  rewrite <- (join_split_nl text) in H.
  rewrite find_vars_join in H by apply split_on_not_nil.
  unfold evaluate_template_text.
  rewrite <- (join_split_nl text) at 2. f_equal.
  induction (split_on nl text) as [|l ls IH]; [reflexivity|].
  simpl in H. apply app_eq_nil in H as [Hl Hls].
  simpl. rewrite evaluate_line_no_vars by exact Hl. simpl. rewrite IH by exact Hls.
  reflexivity.
Qed.

Lemma evaluate_template_text_no_placeholder_witness :
  find_vars "Finish time: 03:12:45
Bib $42, {bonus} ${not a var}" = []
  /\ evaluate_template_text "Finish time: 03:12:45
Bib $42, {bonus} ${not a var}" [("bonus", Some "x")]
     = "Finish time: 03:12:45
Bib $42, {bonus} ${not a var}".
Proof.
  assert (H : find_vars "Finish time: 03:12:45
Bib $42, {bonus} ${not a var}" = []) by reflexivity.
  split; [exact H|].
  exact (evaluate_template_text_no_placeholder _ _ H).
Defined.

(* ------------------------------------------------------------------ *)
(** ** Line-wise substitution (C8) *)

Lemma render_app (a b : list tok) : render (a ++ b) = (render a ++ render b)%string.
Proof.
  induction a as [|t a IH]; [reflexivity|].
  simpl. rewrite IH, append_assoc_str. reflexivity.
Qed.

Lemma render_chars (s : string) : render (chars_toks s) = s.
Proof. induction s as [|c s IH]; simpl; [reflexivity|rewrite IH; reflexivity]. Qed.

Lemma all_chars_app (p : ascii -> bool) (a b : string) :
  all_chars p (a ++ b) = all_chars p a && all_chars p b.
Proof.
  induction a as [|c a IH]; simpl; [reflexivity|].
  rewrite IH, andb_assoc. reflexivity.
Qed.

Lemma word_not_dollar (c : ascii) : is_word c = true -> Ascii.eqb c "$" = false.
Proof. intros H. destruct (Ascii.eqb_spec c "$"); [subst; discriminate|reflexivity]. Qed.

Lemma word_not_brace (c : ascii) : is_word c = true -> c <> "}"%char.
Proof. intros H E. subst. discriminate. Qed.

Lemma word_not_nl (c : ascii) : is_word c = true -> Ascii.eqb c nl = false.
Proof. intros H. destruct (Ascii.eqb_spec c nl); [subst; discriminate|reflexivity]. Qed.

Lemma word_no_dollar (w : string) : all_chars is_word w = true -> no_dollar w = true.
Proof.
  induction w as [|c w IH]; simpl; [reflexivity|].
  intros H. apply andb_prop in H as [Hc Hw].
  unfold no_dollar in *; simpl. rewrite word_not_dollar, IH by assumption. reflexivity.
Qed.

Lemma word_no_nl (w : string) : all_chars is_word w = true -> no_nl w = true.
Proof.
  induction w as [|c w IH]; simpl; [reflexivity|].
  intros H. apply andb_prop in H as [Hc Hw].
  unfold no_nl in *; simpl. rewrite word_not_nl, IH by assumption. reflexivity.
Qed.

Lemma placeholder_eq (v : string) :
  placeholder v = String "$" (String "{" (v ++ String "}" EmptyString)).
Proof. reflexivity. Qed.

Lemma placeholder_app (w x : string) :
  (placeholder w ++ x)%string = String "$" (String "{" (w ++ String "}" x)).
Proof. rewrite placeholder_eq. simpl. rewrite append_assoc_str. reflexivity. Qed.

(** Reading a name to its closing brace. *)
Lemma find_vars_name (acc w rest : string) :
  all_chars is_word w = true -> String.eqb (acc ++ w) EmptyString = false ->
  find_vars_from (InName acc) (w ++ String "}" rest)
  = (acc ++ w)%string :: find_vars_from Idle rest.
Proof.
  revert acc; induction w as [|c w IH]; intros acc Hw Hne.
  - simpl. rewrite append_nil_r in *. rewrite Hne. reflexivity.
  - simpl in Hw. apply andb_prop in Hw as [Hc Hw].
    simpl. rewrite Hc. rewrite IH by (rewrite ?append_assoc_str; assumption).
    rewrite append_assoc_str. reflexivity.
Qed.

Lemma find_vars_render (ts : list tok) :
  forallb tok_inv ts = true -> find_vars_from Idle (render ts) = tok_vars ts.
Proof.
  induction ts as [|[c|v] ts IH]; intros H; [reflexivity| |].
  - simpl in H. apply andb_prop in H as [Hc Hts].
    simpl. apply negb_true_iff in Hc. rewrite Hc. apply IH, Hts.
  - simpl in H. apply andb_prop in H as [Hv Hts]. apply andb_prop in Hv as [Hne Hw].
    apply negb_true_iff in Hne.
    cbn [render render_tok]. rewrite placeholder_app. simpl.
    rewrite find_vars_name by assumption. simpl. rewrite IH by assumption. reflexivity.
Qed.

Lemma prefix_app (s t : string) : String.prefix s (s ++ t) = true.
Proof.
  induction s as [|c s IH]; [destruct t; reflexivity|].
  simpl. destruct (ascii_dec c c); [exact IH|congruence].
Qed.

Lemma prefix_head_neq (a b : ascii) (s t : string) :
  a <> b -> String.prefix (String a s) (String b t) = false.
Proof. intros H. simpl. destruct (ascii_dec a b); [congruence|reflexivity]. Qed.

Lemma prefix_name_neq (v w rest : string) :
  all_chars is_word v = true -> all_chars is_word w = true -> v <> w ->
  String.prefix (v ++ String "}" EmptyString) (w ++ String "}" rest) = false.
Proof.
  revert w; induction v as [|a v IH]; intros w Hv Hw Hne.
  - destruct w as [|b w]; [congruence|].
    simpl in Hw. apply andb_prop in Hw as [Hb _].
    apply prefix_head_neq. intros E. apply (word_not_brace b Hb). congruence.
  - simpl in Hv. apply andb_prop in Hv as [Ha Hv].
    destruct w as [|b w].
    + apply prefix_head_neq. apply word_not_brace, Ha.
    + simpl in Hw. apply andb_prop in Hw as [Hb Hw].
      simpl. destruct (ascii_dec a b) as [E|E]; [|reflexivity].
      subst b. apply IH; [assumption|assumption|congruence].
Qed.

Lemma prefix_placeholder_neq (v w rest : string) :
  all_chars is_word v = true -> all_chars is_word w = true -> v <> w ->
  String.prefix (placeholder v) (placeholder w ++ rest) = false.
Proof.
  intros Hv Hw Hne. rewrite !placeholder_eq. simpl.
  rewrite append_assoc_str. simpl.
  apply prefix_name_neq; assumption.
Qed.

Lemma replace_cons0 (old new : string) (c : ascii) (r : string) :
  replace_from old new 0 (String c r)
  = if String.prefix old (String c r)
    then (new ++ replace_from old new (String.length old - 1) r)%string
    else String c (replace_from old new 0 r).
Proof. reflexivity. Qed.

(** Dropping the characters of a replaced occurrence. *)
Lemma replace_skip (old new s1 s2 : string) :
  replace_from old new (String.length s1) (s1 ++ s2) = replace_from old new 0 s2.
Proof. induction s1 as [|c s1 IH]; simpl; [reflexivity|exact IH]. Qed.

(** An occurrence of [old] starts at a [$]; text without [$] is copied. *)
Lemma replace_pass (r new s1 s2 : string) :
  no_dollar s1 = true ->
  replace_from (String "$" r) new 0 (s1 ++ s2) = (s1 ++ replace_from (String "$" r) new 0 s2)%string.
Proof.
  induction s1 as [|c s1 IH]; intros H; [reflexivity|].
  unfold no_dollar in H; simpl in H. apply andb_prop in H as [Hc H].
  apply negb_true_iff in Hc.
  simpl (String c s1 ++ s2)%string. rewrite replace_cons0, prefix_head_neq.
  - rewrite IH by exact H. reflexivity.
  - intros E. subst c. discriminate.
Qed.

Lemma subst1_cons (v value : string) (t : tok) (ts : list tok) :
  subst1 v value (t :: ts)
  = ((match t with
      | TVar w => if String.eqb w v then chars_toks value else [t]
      | TChar _ => [t]
      end) ++ subst1 v value ts)%list.
Proof. reflexivity. Qed.

Lemma replace_render (v value : string) (ts : list tok) :
  String.eqb v EmptyString = false -> all_chars is_word v = true ->
  forallb tok_inv ts = true ->
  replace_from (placeholder v) value 0 (render ts) = render (subst1 v value ts).
Proof.
  intros Hne Hv. induction ts as [|[c|w] ts IH]; intros H; [reflexivity| |].
  - simpl in H. apply andb_prop in H as [Hc Hts]. apply negb_true_iff in Hc.
    rewrite subst1_cons. simpl render. rewrite replace_cons0.
    rewrite placeholder_eq at 1. rewrite prefix_head_neq.
    + rewrite IH by exact Hts. reflexivity.
    + intros E. subst c. discriminate.
  - simpl in H. apply andb_prop in H as [Hw Hts]. apply andb_prop in Hw as [Hwne Hw].
    rewrite subst1_cons, render_app. cbn [render render_tok].
    rewrite placeholder_app, replace_cons0, <- placeholder_app.
    destruct (String.eqb_spec w v) as [E|E].
    + subst w. rewrite prefix_app, render_chars.
      assert (Hl : (String.length (placeholder v) - 1)%nat
                   = String.length (String "{" (v ++ String "}" EmptyString)))
        by (rewrite placeholder_eq; simpl; lia).
      assert (Ha : String "{" (v ++ String "}" (render ts))
                   = (String "{" (v ++ String "}" EmptyString) ++ render ts)%string)
        by (simpl; rewrite append_assoc_str; reflexivity).
      rewrite Hl, Ha, replace_skip, IH by exact Hts. reflexivity.
    + rewrite prefix_placeholder_neq by auto.
      assert (Ha : String "{" (w ++ String "}" (render ts))
                   = (String "{" (w ++ String "}" EmptyString) ++ render ts)%string)
        by (simpl; rewrite append_assoc_str; reflexivity).
      rewrite Ha, placeholder_eq at 1. rewrite replace_pass.
      * rewrite <- placeholder_eq, IH by exact Hts.
        cbn [render render_tok]. rewrite append_nil_r, placeholder_eq. reflexivity.
      * pose proof (word_no_dollar w Hw) as Hd. unfold no_dollar in *.
        simpl. rewrite all_chars_app, Hd. reflexivity.
Qed.

Lemma chars_toks_inv (s : string) :
  no_dollar s = true -> forallb tok_inv (chars_toks s) = true.
Proof.
  induction s as [|c s IH]; intros H; [reflexivity|].
  unfold no_dollar in H; simpl in H. apply andb_prop in H as [Hc H].
  simpl. rewrite Hc, IH by exact H. reflexivity.
Qed.

Lemma subst1_inv (v value : string) (ts : list tok) :
  no_dollar value = true -> forallb tok_inv ts = true ->
  forallb tok_inv (subst1 v value ts) = true.
Proof.
  intros Hval. induction ts as [|t ts IH]; intros H; [reflexivity|].
  simpl in H. apply andb_prop in H as [Ht Hts].
  rewrite subst1_cons, forallb_app, IH by exact Hts.
  destruct t as [c|w].
  - simpl in Ht |- *. rewrite Ht. reflexivity.
  - simpl. destruct (String.eqb w v); [rewrite chars_toks_inv by exact Hval; reflexivity|].
    simpl. simpl in Ht. rewrite Ht. reflexivity.
Qed.

Definition good_name (u : string) : Prop :=
  String.eqb u EmptyString = false /\ all_chars is_word u = true.

(** The chain of [str.replace] calls of [evaluate_template_text], on
    tokens. *)
Lemma fold_replace_render (f : string -> string) (names : list string) (ts : list tok) :
  (forall u, no_dollar (f u) = true) -> Forall good_name names ->
  forallb tok_inv ts = true ->
  fold_left (fun acc u => str_replace acc (placeholder u) (f u)) names (render ts)
  = render (fold_left (fun ts u => subst1 u (f u) ts) names ts).
Proof.
  intros Hf. revert ts; induction names as [|u names IH]; intros ts Hn Hts; [reflexivity|].
  inversion Hn as [|? ? [Hne Hw] Hn']; subst.
  simpl. unfold str_replace at 2. rewrite replace_render by assumption.
  apply IH; [exact Hn'|]. apply subst1_inv; auto.
Qed.

Lemma subst_in_app (names : list string) (f : string -> string) (a b : list tok) :
  subst_in names f (a ++ b) = (subst_in names f a ++ subst_in names f b)%list.
Proof. unfold subst_in. apply flat_map_app. Qed.

Lemma subst_in_chars (names : list string) (f : string -> string) (s : string) :
  subst_in names f (chars_toks s) = chars_toks s.
Proof. induction s as [|c s IH]; [reflexivity|]. simpl. f_equal. exact IH. Qed.

Lemma subst_in_nil (f : string -> string) (ts : list tok) : subst_in [] f ts = ts.
Proof.
  induction ts as [|t ts IH]; [reflexivity|].
  destruct t; simpl; f_equal; exact IH.
Qed.

Lemma subst_in_subst1 (u : string) (names : list string) (f : string -> string) (ts : list tok) :
  subst_in names f (subst1 u (f u) ts) = subst_in (u :: names) f ts.
Proof.
  induction ts as [|t ts IH]; [reflexivity|].
  rewrite subst1_cons, subst_in_app, IH.
  destruct t as [c|w]; [reflexivity|].
  change (subst_in (u :: names) f (TVar w :: ts))
    with ((if existsb (String.eqb w) (u :: names) then chars_toks (f w) else [TVar w])
          ++ subst_in (u :: names) f ts)%list.
  simpl existsb. destruct (String.eqb_spec w u) as [E|E].
  - subst w. simpl. rewrite subst_in_chars. reflexivity.
  - simpl. rewrite app_nil_r. reflexivity.
Qed.

Lemma fold_subst1 (f : string -> string) (names : list string) (ts : list tok) :
  fold_left (fun ts u => subst1 u (f u) ts) names ts = subst_in names f ts.
Proof.
  revert ts. induction names as [|u names IH]; intros ts.
  - symmetry. apply subst_in_nil.
  - simpl. rewrite IH. apply subst_in_subst1.
Qed.

Lemma subst_in_render (vars : template_vars) (names : list string) (ts : list tok) :
  (forall w, In w (tok_vars ts) -> In w names) ->
  render (subst_in names (var_str vars) ts) = render_subst vars ts.
Proof.
  induction ts as [|[c|w] ts IH]; intros H; [reflexivity| |].
  - simpl. f_equal. apply IH, H.
  - change (subst_in names (var_str vars) (TVar w :: ts))
      with ((if existsb (String.eqb w) names then chars_toks (var_str vars w) else [TVar w])
            ++ subst_in names (var_str vars) ts)%list.
    assert (Hin : existsb (String.eqb w) names = true).
    { apply existsb_exists. exists w. split; [apply H; left; reflexivity|apply String.eqb_refl]. }
    rewrite Hin, render_app, render_chars, IH; [reflexivity|].
    intros x Hx. apply H. right. exact Hx.
Qed.

Lemma tok_vars_good (ts : list tok) :
  forallb tok_inv ts = true -> Forall good_name (tok_vars ts).
Proof.
  induction ts as [|[c|w] ts IH]; intros H; [constructor| |];
    simpl in H; apply andb_prop in H as [Ht Hts].
  - apply IH, Hts.
  - apply andb_prop in Ht as [Hne Hw]. apply negb_true_iff in Hne.
    constructor; [split; assumption|apply IH, Hts].
Qed.

Lemma var_str_no_dollar (vars : template_vars) (name : string) :
  (forall k v, In (k, Some v) vars -> no_dollar v = true) ->
  no_dollar (var_str vars name) = true.
Proof.
  intros H. unfold var_str, vars_get.
  destruct (find (fun kv => String.eqb (fst kv) name) vars) as [[k [v|]]|] eqn:Hf;
    try reflexivity.
  apply find_some in Hf as [Hin _]. eapply H, Hin.
Qed.

(** One well-formed line: dropped when a placeholder's variable is
    missing, else every placeholder replaced by its value. *)
Lemma evaluate_line_render (vars : template_vars) (ts : list tok) :
  (forall k v, In (k, Some v) vars -> no_dollar v = true) ->
  forallb tok_inv ts = true ->
  evaluate_line vars (render ts)
  = if existsb (var_missing vars) (tok_vars ts) then None
    else Some (render_subst vars ts).
Proof.
  intros Hvars Hts. unfold evaluate_line, find_vars.
  rewrite find_vars_render by exact Hts.
  destruct (existsb (var_missing vars) (tok_vars ts)); [reflexivity|].
  f_equal.
  rewrite fold_replace_render.
  - rewrite fold_subst1. apply subst_in_render. auto.
  - intros u. apply var_str_no_dollar, Hvars.
  - apply tok_vars_good, Hts.
  - exact Hts.
Qed.

Lemma tok_ok_inv (t : tok) : tok_ok t = true -> tok_inv t = true.
Proof.
  destruct t as [c|v]; simpl; [|auto].
  intros H. apply andb_prop in H as [H _]. exact H.
Qed.

Lemma toks_ok_inv (ts : list tok) : forallb tok_ok ts = true -> forallb tok_inv ts = true.
Proof.
  induction ts as [|t ts IH]; simpl; [reflexivity|].
  intros H. apply andb_prop in H as [Ht Hts]. rewrite tok_ok_inv, IH; auto.
Qed.

Lemma render_no_nl (ts : list tok) : forallb tok_ok ts = true -> no_nl (render ts) = true.
Proof.
  induction ts as [|[c|v] ts IH]; intros H; [reflexivity| |];
    simpl in H; apply andb_prop in H as [Ht Hts]; specialize (IH Hts).
  - apply andb_prop in Ht as [_ Hc]. unfold no_nl in *. simpl. rewrite Hc, IH. reflexivity.
  - apply andb_prop in Ht as [_ Hw]. pose proof (word_no_nl v Hw) as Hv.
    unfold no_nl in *. cbn [render render_tok]. rewrite placeholder_app. simpl.
    rewrite all_chars_app, Hv. simpl. exact IH.
Qed.

Lemma split_on_no_nl (x : string) : no_nl x = true -> split_on nl x = [x].
Proof.
  induction x as [|c x IH]; intros H; [reflexivity|].
  unfold no_nl in H; simpl in H. apply andb_prop in H as [Hc H].
  apply negb_true_iff in Hc. simpl. rewrite Hc, IH by exact H. reflexivity.
Qed.

Lemma split_on_app_nl (x r : string) :
  no_nl x = true -> split_on nl (x ++ String nl r) = x :: split_on nl r.
Proof.
  induction x as [|c x IH]; intros H; [reflexivity|].
  unfold no_nl in H; simpl in H. apply andb_prop in H as [Hc H].
  apply negb_true_iff in Hc. simpl. rewrite Hc, IH by exact H. reflexivity.
Qed.

(** Splitting a join of newline-free lines gives the lines back. *)
Lemma split_join_nl (xs : list string) :
  xs <> [] -> Forall (fun x => no_nl x = true) xs -> split_on nl (join nl_str xs) = xs.
Proof.
  induction xs as [|x xs IH]; intros Hne H; [congruence|].
  inversion H as [|? ? Hx Hxs]; subst.
  destruct xs as [|y ys].
  - apply split_on_no_nl, Hx.
  - change (join nl_str (x :: y :: ys)) with (x ++ String nl (join nl_str (y :: ys)))%string.
    rewrite split_on_app_nl, IH by (auto || discriminate). reflexivity.
Qed.

(** C8 (counterexample): the placeholders are replaced one variable after
    the other, so a value that itself contains a placeholder can be substituted
    again.  With [a = "${b}"] and [b = "x"] the line ["${a} ${b}"] becomes
    ["x x"], while replacing each placeholder of the line by its value
    gives ["${b} x"]. *)
Lemma template_cascade_counterexample :
  render [TVar "a"; TChar " "; TVar "b"] = "${a} ${b}"
  /\ evaluate_template_text (render [TVar "a"; TChar " "; TVar "b"])
       [("a", Some "${b}"); ("b", Some "x")] = "x x"
  /\ render_subst [("a", Some "${b}"); ("b", Some "x")] [TVar "a"; TChar " "; TVar "b"]
     = "${b} x".
Proof. split; [reflexivity|split; vm_compute; reflexivity]. Qed.

(** C8 (amended): the text is split on newlines and each line is handled on
    its own.  A line is dropped exactly when one of the names its
    [${name}] placeholders match is absent or null.  For lines in which
    [$] only starts well-formed placeholders, and variables whose values
    contain no [$], each kept line is the line with every placeholder
    replaced by the string of its value, and the kept lines are joined by
    newlines.  In general a kept line is rewritten once per matched name,
    in the order of the matches, each time with [str.replace] over the
    whole current line; whether a placeholder brought in by a value is
    substituted again depends on that order: with [a = "${b}"] and
    [b = "x"], ["${a} ${b}"] gives ["x x"] but ["${b} ${a}"] gives
    ["x ${b}"].  ["Category: ${category}"] gives the empty text with
    [category = None] and ["Category: 5K"] with [category = "5K"]. *)
Theorem evaluate_template_text_lines :
  forall (vars : template_vars) (lss : list (list tok)),
    lss <> [] ->
    Forall (fun ts => forallb tok_ok ts = true) lss ->
    (forall k v, In (k, Some v) vars -> no_dollar v = true) ->
    evaluate_template_text (join nl_str (map render lss)) vars
    = join nl_str (flat_map (fun ts => if existsb (var_missing vars) (tok_vars ts)
                                       then [] else [render_subst vars ts]) lss)
    /\ (forall line, evaluate_line vars line = None
                     <-> exists v, In v (find_vars line) /\ var_missing vars v = true)
    /\ (forall line l, evaluate_line vars line = Some l ->
          l = fold_left (fun acc v => str_replace acc (placeholder v) (var_str vars v))
                        (find_vars line) line)
    /\ evaluate_template_text "${a} ${b}" [("a", Some "${b}"); ("b", Some "x")] = "x x"
    /\ evaluate_template_text "${b} ${a}" [("a", Some "${b}"); ("b", Some "x")] = "x ${b}"
    /\ evaluate_template_text "Category: ${category}" [("category", None)] = ""
    /\ evaluate_template_text "Category: ${category}" [("category", Some "5K")]
       = "Category: 5K".
Proof.
  intros vars lss Hne Hok Hvars.
  split; [|split; [|split; [|split; [|split; [|split]]]]];
    [| | |vm_compute; reflexivity ..].
  - unfold evaluate_template_text. rewrite split_join_nl.
    + f_equal. induction lss as [|ts lss IH]; [reflexivity|].
      inversion Hok as [|? ? Hts Hlss]; subst.
      simpl. rewrite evaluate_line_render by (auto using toks_ok_inv).
      destruct (existsb (var_missing vars) (tok_vars ts)); simpl;
        (destruct lss as [|ts' lss']; [reflexivity|]); rewrite IH by (auto || discriminate);
        reflexivity.
    + destruct lss; [congruence|discriminate].
    + apply Forall_map. eapply Forall_impl; [|exact Hok].
      intros ts Hts. apply render_no_nl, Hts.
  - intros line. unfold evaluate_line.
    destruct (existsb (var_missing vars) (find_vars line)) eqn:Hx.
    + apply existsb_exists in Hx. split; [intros _; exact Hx|reflexivity].
    + split; [discriminate|]. intros Hv. apply existsb_exists in Hv. congruence.
  - intros line l. unfold evaluate_line.
    destruct (existsb (var_missing vars) (find_vars line)); [discriminate|].
    intros H. injection H as H. symmetry. exact H.
Qed.

Lemma evaluate_template_text_lines_witness :
  [[TVar "name"; TChar ":"; TChar " "; TVar "time"]; [TChar "B"; TVar "bib"]] <> []
  /\ Forall (fun ts => forallb tok_ok ts = true)
       [[TVar "name"; TChar ":"; TChar " "; TVar "time"]; [TChar "B"; TVar "bib"]]
  /\ evaluate_template_text "${name}: ${time}
B${bib}" [("name", Some "Ana"); ("time", Some "03:12:45"); ("bib", None)]
     = "Ana: 03:12:45".
Proof.
  assert (H1 : [[TVar "name"; TChar ":"; TChar " "; TVar "time"]; [TChar "B"; TVar "bib"]] <> [])
    by discriminate.
  assert (H2 : Forall (fun ts => forallb tok_ok ts = true)
       [[TVar "name"; TChar ":"; TChar " "; TVar "time"]; [TChar "B"; TVar "bib"]])
    by (repeat constructor).
  assert (H3 : forall k v, In (k, Some v)
                 [("name", Some "Ana"); ("time", Some "03:12:45"); ("bib", None)]
                 -> no_dollar v = true).
  { intros k v Hin. simpl in Hin.
    repeat destruct Hin as [Hin|Hin]; try (injection Hin; intros; subst; reflexivity);
      try discriminate; contradiction. }
  split; [exact H1|split; [exact H2|]].
  destruct (evaluate_template_text_lines _ _ H1 H2 H3) as [Hl _].
  exact Hl.
Defined.

(* ------------------------------------------------------------------ *)
(** ** Further properties of the code *)

Lemma assign_images_nil (ovs : list cfg_overlay) :
  assign_images ovs [] = filter (fun o => negb (takes_images o)) ovs.
Proof.
  induction ovs as [|o ovs IH]; [reflexivity|].
  simpl. unfold takes_images.
  destruct (type_is o "image_stack"), (type_is o "image"); simpl; rewrite ?IH; reflexivity.
Qed.

Lemma handed_no_takes (ovs : list cfg_overlay) :
  forallb (fun o => negb (takes_images o)) ovs = true -> handed ovs = [].
Proof.
  induction ovs as [|o ovs IH]; intros H; [reflexivity|].
  simpl in H. apply andb_prop in H as [Ho H]. unfold takes_images in Ho.
  simpl. destruct (type_is o "image_stack"), (type_is o "image"); try discriminate.
  simpl. apply IH, H.
Qed.

Lemma forallb_filter_negb {A} (f : A -> bool) (l : list A) :
  forallb (fun x => negb (f x)) (filter (fun x => negb (f x)) l) = true.
Proof.
  induction l as [|x l IH]; [reflexivity|].
  simpl. destruct (f x) eqn:E; simpl; [exact IH|rewrite E, IH; reflexivity].
Qed.

Lemma handed_assign_nil (ovs : list cfg_overlay) : handed (assign_images ovs []) = [].
Proof. rewrite assign_images_nil. apply handed_no_takes, forallb_filter_negb. Qed.

(** Rebuilding an overlay with new keys keeps its type. *)
Lemma type_is_rebuild (o : cfg_overlay) (tx ip : jfield) (ips : jpaths) (name : string) :
  type_is (mk_cfg_overlay (co_type o) tx ip ips) name = type_is o name.
Proof. reflexivity. Qed.

(** X1: the images handed out by [generate_reel_local], read in overlay
    order, are the first [k] images of the list for some [k]: no image is
    handed out twice, skipped or reordered; and the overlays that take no
    image are all kept, in their order. *)
Theorem assign_images_prefix :
  forall (ovs : list cfg_overlay) (imgs : list string),
    (exists k, handed (assign_images ovs imgs) = firstn k imgs)
    /\ filter (fun o => negb (takes_images o)) (assign_images ovs imgs)
       = filter (fun o => negb (takes_images o)) ovs.
Proof.
  induction ovs as [|o ovs IH]; intros imgs.
  - split; [exists 0%nat; reflexivity|reflexivity].
  - simpl. unfold takes_images at 2.
    destruct (type_is o "image_stack") eqn:Hs.
    + destruct imgs as [|p ps].
      * rewrite handed_assign_nil. split; [exists 0%nat; reflexivity|].
        rewrite orb_true_r. simpl. apply (proj2 (IH [])).
      * split.
        -- exists (length (p :: ps)). cbn [handed]. rewrite !type_is_rebuild, Hs, handed_assign_nil.
           rewrite app_nil_r, firstn_all. reflexivity.
        -- simpl filter. unfold takes_images at 1. rewrite !type_is_rebuild.
           rewrite Hs, orb_true_r. simpl. apply (proj2 (IH [])).
    + destruct (type_is o "image") eqn:Hi.
      * destruct imgs as [|p ps].
        -- rewrite handed_assign_nil. split; [exists 0%nat; reflexivity|].
           simpl. apply (proj2 (IH [])).
        -- destruct (IH ps) as [[k Hk] Hf]. split.
           ++ exists (S k). cbn [handed]. rewrite !type_is_rebuild.
              rewrite Hs, Hi, Hk. reflexivity.
           ++ simpl filter. unfold takes_images at 1. rewrite !type_is_rebuild.
              rewrite Hi. simpl. exact Hf.
      * destruct (IH imgs) as [[k Hk] Hf]. split.
        -- exists k. cbn [handed]. rewrite Hs, Hi. exact Hk.
        -- simpl filter. unfold takes_images at 1. rewrite Hs, Hi. simpl. f_equal. exact Hf.
Qed.

Lemma assign_images_app (pre rest : list cfg_overlay) (imgs : list string) :
  no_stack pre = true ->
  assign_images (pre ++ rest) imgs
  = (assign_images pre imgs ++ assign_images rest (skipn (count_image pre) imgs))%list.
Proof.
  revert imgs; induction pre as [|o pre IH]; intros imgs H; [reflexivity|].
  simpl in H. apply andb_prop in H as [Ho H]. apply negb_true_iff in Ho.
  unfold count_image. simpl. rewrite Ho.
  destruct (type_is o "image") eqn:Hi.
  - destruct imgs as [|p ps].
    + rewrite IH by exact H. simpl. rewrite !skipn_nil. reflexivity.
    + rewrite IH by exact H. reflexivity.
  - rewrite IH by exact H. reflexivity.
Qed.

(** X2: when the configuration has no [image_stack] and at least as many
    images as [image] overlays, [generate_reel_local] drops no overlay and
    hands the [i]-th image to the [i]-th [image] overlay. *)
Theorem assign_images_enough :
  forall (ovs : list cfg_overlay) (imgs : list string),
    no_stack ovs = true -> (count_image ovs <= length imgs)%nat ->
    length (assign_images ovs imgs) = length ovs
    /\ handed (assign_images ovs imgs) = firstn (count_image ovs) imgs.
Proof.
  induction ovs as [|o ovs IH]; intros imgs H Hc; [split; reflexivity|].
  simpl in H. apply andb_prop in H as [Ho H]. apply negb_true_iff in Ho.
  unfold count_image in *. simpl in *. rewrite Ho in *.
  destruct (type_is o "image") eqn:Hi.
  - destruct imgs as [|p ps]; simpl in Hc; [lia|].
    destruct (IH ps H) as [Hl Hh]; [lia|].
    simpl. rewrite !type_is_rebuild, Ho, Hi, Hl, Hh. split; reflexivity.
  - destruct (IH imgs H Hc) as [Hl Hh].
    simpl. rewrite Ho, Hi, Hl, Hh. split; reflexivity.
Qed.

(** X3: an [image_stack] reached while images are left takes every image
    not taken by the [image] overlays before it, and every [image] or
    [image_stack] overlay after it is dropped; the other overlays after it
    are kept. *)
Theorem assign_images_stack :
  forall (pre post : list cfg_overlay) (st : cfg_overlay) (imgs : list string),
    no_stack pre = true -> type_is st "image_stack" = true ->
    (count_image pre < length imgs)%nat ->
    assign_images (pre ++ st :: post) imgs
    = (assign_images pre imgs
       ++ mk_cfg_overlay (co_type st) (co_text st) (co_image_path st)
            (LStrs (skipn (count_image pre) imgs))
       :: filter (fun o => negb (takes_images o)) post)%list.
Proof.
  intros pre post st imgs Hpre Hst Hc.
  rewrite assign_images_app by exact Hpre. f_equal.
  simpl. rewrite Hst.
  destruct (skipn (count_image pre) imgs) as [|p ps] eqn:Hs.
  - apply (f_equal (@length string)) in Hs. rewrite length_skipn in Hs. simpl in Hs. lia.
  - rewrite assign_images_nil. reflexivity.
Qed.

(** X4: an overlay with a text but no [type] key is not a text overlay for
    [process_reel_config], so its [${name}] placeholders are left as they
    are, while [generate_reel_local] counts it as an [image] overlay.
    Wherever it stands in the list (after overlays with no
    [image_stack]), it takes the first image the [image] overlays before
    it have left, or is dropped when none is left.  An overlay of type
    ["text"] gets its text substituted and is kept in place, taking no
    image. *)
Theorem untyped_text_overlay :
  forall (vars : template_vars) (o : cfg_overlay) (s p : string) (ps imgs : list string),
    co_type o = JAbsent -> co_text o = JStr s ->
    process_cfg_overlay vars o = Ok o
    /\ prepare_overlays vars [] (Some [o]) = Ok []
    /\ prepare_overlays vars (p :: ps) (Some [o])
       = Ok [mk_cfg_overlay JAbsent (JStr s) (JStr p) (co_image_paths o)]
    /\ (forall pre post, no_stack pre = true ->
          assign_images (pre ++ o :: post) imgs
          = (assign_images pre imgs
             ++ match skipn (count_image pre) imgs with
                | [] => assign_images post []
                | q :: rest =>
                    mk_cfg_overlay JAbsent (JStr s) (JStr q) (co_image_paths o)
                      :: assign_images post rest
                end)%list)
    /\ (let t := mk_cfg_overlay (JStr "text") (JStr s) (co_image_path o) (co_image_paths o) in
        process_cfg_overlay vars t
        = Ok (mk_cfg_overlay (JStr "text") (JStr (evaluate_template_text s vars))
                (co_image_path o) (co_image_paths o))
        /\ forall pre post, no_stack pre = true ->
             assign_images (pre ++ t :: post) imgs
             = (assign_images pre imgs
                ++ t :: assign_images post (skipn (count_image pre) imgs))%list).
Proof.
  intros vars o s p ps imgs Ht Hx.
  assert (Hp : process_cfg_overlay vars o = Ok o) by (unfold process_cfg_overlay; rewrite Ht; reflexivity).
  split; [exact Hp|].
  split; [|split; [|split]].
  - unfold prepare_overlays, process_reel_config, generate_reel_local. simpl. rewrite Hp. simpl.
    unfold type_is. rewrite Ht. reflexivity.
  - unfold prepare_overlays, process_reel_config, generate_reel_local. simpl. rewrite Hp. simpl.
    unfold type_is. rewrite Ht. simpl. rewrite Hx. reflexivity.
  - intros pre post Hpre. rewrite assign_images_app by exact Hpre. f_equal.
    simpl. unfold type_is at 1 2. rewrite Ht. simpl.
    destruct (skipn (count_image pre) imgs) as [|q rest]; [reflexivity|].
    rewrite Hx. reflexivity.
  - cbv zeta. split; [reflexivity|].
    intros pre post Hpre. rewrite assign_images_app by exact Hpre. reflexivity.
Qed.

Lemma ascii_lower_idem (c : ascii) : ascii_lower (ascii_lower c) = ascii_lower c.
Proof. destruct c as [[] [] [] [] [] [] [] []]; reflexivity. Qed.

Lemma lower_idem (s : string) : lower (lower s) = lower s.
Proof. induction s as [|c s IH]; simpl; [reflexivity|rewrite ascii_lower_idem, IH; reflexivity]. Qed.

(** X5: a keyword position is read case-insensitively, and for an overlay
    no larger than the video every keyword places it wholly inside the
    frame: [0 <= x <= vw - ow] and [0 <= y <= vh - oh]. *)
Theorem get_position_keyword_inside :
  forall (s : string) (vw vh ow oh x y : Z),
    get_position (PStr s) (vw, vh) (ow, oh) = get_position (PStr (lower s)) (vw, vh) (ow, oh)
    /\ (get_position (PStr s) (vw, vh) (ow, oh) = Ok (x, y) ->
        (ow <= vw)%Z -> (oh <= vh)%Z ->
        (0 <= x <= vw - ow)%Z /\ (0 <= y <= vh - oh)%Z).
Proof.
  intros s vw vh ow oh x y. split.
  - simpl. rewrite lower_idem. reflexivity.
  - simpl. destruct (keyword_mapping (lower s)) as [[hx vy]|]; [|discriminate].
    intros H Hw Hh. injection H as <- <-.
    split; [destruct hx|destruct vy]; split;
      try lia; try (apply Z.div_pos; lia);
      try (apply Z.div_le_upper_bound; lia).
Qed.

Lemma join_split_on (c : ascii) (s : string) : join (String c EmptyString) (split_on c s) = s.
Proof.
  induction s as [|d r IH]; [reflexivity|].
  simpl. destruct (Ascii.eqb d c) eqn:Hd.
  - apply Ascii.eqb_eq in Hd. subst d.
    destruct (split_on c r) as [|p ps] eqn:Hs; [exfalso; eapply split_on_not_nil; eauto|].
    simpl. rewrite <- IH. reflexivity.
  - destruct (split_on c r) as [|p ps] eqn:Hs; [exfalso; eapply split_on_not_nil; eauto|].
    rewrite join_cons_char, IH. reflexivity.
Qed.

Lemma join_app (sep : string) (a b : list string) :
  a <> [] -> b <> [] -> join sep (a ++ b) = (join sep a ++ sep ++ join sep b)%string.
Proof.
  induction a as [|x a IH]; intros Ha Hb; [congruence|].
  destruct a as [|y a].
  - simpl. destruct b; [congruence|reflexivity].
  - assert (H' := IH ltac:(discriminate) Hb). simpl app in H' |- *.
    change (join sep (x :: y :: (a ++ b)%list))
      with (x ++ sep ++ join sep (y :: (a ++ b)%list))%string.
    change (join sep (x :: y :: a)) with (x ++ sep ++ join sep (y :: a))%string.
    rewrite H', !append_assoc_str. reflexivity.
Qed.

Lemma wrap_words_not_nil E font mw ws (current : list string) :
  current <> [] -> wrap_words E font mw ws current <> [].
Proof.
  revert current; induction ws as [|w ws IH]; intros current H; simpl.
  - destruct current; [congruence|discriminate].
  - destruct (textbbox E font (strip (join " " (current ++ [w]))) 0) as [[[b0 b1] b2] b3].
    destruct (truthy_width mw) as [m|], current as [|c cs]; try congruence;
      try (apply IH; intros Hn; destruct cs; discriminate).
    destruct (m <? b2 - b0)%Z; [discriminate|apply IH; discriminate].
Qed.

(** Greedy packing only groups the words: the lines joined by spaces are
    the words joined by spaces. *)
Lemma join_wrap_words E font mw ws (current : list string) :
  (current ++ ws)%list <> [] ->
  join " " (wrap_words E font mw ws current) = join " " (current ++ ws).
Proof.
  revert current; induction ws as [|w ws IH]; intros current H; simpl.
  - rewrite app_nil_r in *. destruct current; [congruence|reflexivity].
  - destruct (textbbox E font (strip (join " " (current ++ [w]))) 0) as [[[b0 b1] b2] b3].
    assert (Hw : forall cur, join " " (wrap_words E font mw ws (cur ++ [w]))
                             = join " " (cur ++ w :: ws)).
    { intros cur. rewrite IH.
      - rewrite <- app_assoc. reflexivity.
      - destruct cur; discriminate. }
    destruct (truthy_width mw) as [m|], current as [|c cs]; try apply Hw.
    destruct (m <? b2 - b0)%Z; [|apply Hw].
    assert (Hne : wrap_words E font mw ws [w] <> []) by (apply wrap_words_not_nil; discriminate).
    destruct (wrap_words E font mw ws [w]) as [|l ls] eqn:Hl; [congruence|].
    change (join " " (join " " (c :: cs) :: l :: ls))
      with (join " " (c :: cs) ++ " " ++ join " " (l :: ls))%string.
    rewrite <- Hl, IH by discriminate.
    rewrite (join_app " " (c :: cs) (w :: ws)) by discriminate. reflexivity.
Qed.

Lemma wrap_words_no_width E font mw ws (current : list string) :
  truthy_width mw = None ->
  wrap_words E font mw ws current
  = match (current ++ ws)%list with [] => [] | _ => [join " " (current ++ ws)] end.
Proof.
  intros Hmw. revert current; induction ws as [|w ws IH]; intros current; simpl.
  - rewrite app_nil_r. destruct current; reflexivity.
  - destruct (textbbox E font (strip (join " " (current ++ [w]))) 0) as [[[b0 b1] b2] b3].
    rewrite Hmw, IH, <- app_assoc. simpl.
    destruct current; reflexivity.
Qed.

(** X6: [_wrap_text] only breaks a paragraph at its spaces: for any
    maximum width, the lines made from a paragraph, joined by single
    spaces, give the paragraph back.  Without a (truthy) maximum width each
    paragraph is one line, except that a whitespace-only paragraph becomes
    an empty line. *)
Theorem wrap_text_paragraphs :
  forall E (text p : string) (font : font_key) (mw : option Z),
    join " " (wrap_words E font mw (split_on " " p) []) = p
    /\ (truthy_width mw = None ->
        wrap_text E text font mw
        = map (fun q => match strip q with EmptyString => EmptyString | _ => q end)
              (split_on nl text)).
Proof.
  intros E text p font mw. split.
  - rewrite join_wrap_words.
    + apply join_split_on.
    + apply split_on_not_nil.
  - intros Hmw. unfold wrap_text.
    induction (split_on nl text) as [|q qs IH]; [reflexivity|].
    simpl. rewrite IH.
    destruct (strip q); [reflexivity|].
    rewrite wrap_words_no_width by exact Hmw. simpl.
    destruct (split_on " " q) as [|w ws] eqn:Hs; [exfalso; eapply split_on_not_nil; eauto|].
    rewrite <- Hs, join_split_on. reflexivity.
Qed.


Lemma in_bytes_range (v : Z) : (0 <= v <= 255)%Z -> In v bytes_range.
Proof.
  intros Hv. unfold bytes_range. apply in_map_iff. exists (Z.to_nat v).
  split; [lia|]. apply in_seq. lia.
Qed.

(* ------------------------------------------------------------------ *)
(** ** Float rounding *)

Lemma fl_compat (a b : Q) : a == b -> fl a = fl b.
Proof. intros H. unfold fl. rewrite (Qred_complete a b H). reflexivity. Qed.

Lemma fl_zero (x : Q) : x == 0 -> fl x = 0.
Proof. intros H. rewrite (fl_compat x 0 H). reflexivity. Qed.

Lemma fl_one : fl 1 == 1.
Proof. apply Qeq_bool_eq. vm_compute. reflexivity. Qed.

Lemma fl_bytes_all :
  forallb (fun z => Qeq_bool (fl (inject_Z z)) (inject_Z z)) bytes_range = true.
Proof. vm_compute. reflexivity. Qed.

(** Every int of [0..255] is a double. *)
Lemma fl_byte (z : Z) : (0 <= z <= 255)%Z -> fl (inject_Z z) == inject_Z z.
Proof.
  intros Hz. apply Qeq_bool_eq.
  exact (proj1 (forallb_forall _ _) fl_bytes_all z (in_bytes_range z Hz)).
Qed.

Lemma clip8_byte (z : Z) : (0 <= z <= 255)%Z -> clip8 z = z.
Proof. intros Hz. unfold clip8. lia. Qed.

Lemma blend_channel_compat (a b : Z) (r r' : Q) :
  r == r' -> blend_channel a b r = blend_channel a b r'.
Proof.
  intros H. unfold blend_channel.
  rewrite (fl_compat (1 - r) (1 - r')) by (rewrite H; reflexivity).
  rewrite (fl_compat (fl (inject_Z b) * r) (fl (inject_Z b) * r')) by (rewrite H; reflexivity).
  reflexivity.
Qed.

Lemma blend_channel_0 (a b : Z) : (0 <= a <= 255)%Z -> blend_channel a b 0 = a.
Proof.
  intros Ha. unfold blend_channel.
  assert (H1 : fl (1 - 0) == 1) by (rewrite (fl_compat (1 - 0) 1) by ring; apply fl_one).
  rewrite (fl_zero (fl (inject_Z b) * 0)) by ring.
  rewrite (fl_compat (fl (inject_Z a) * fl (1 - 0)) (inject_Z a))
    by (rewrite H1, (fl_byte a Ha); ring).
  rewrite (fl_compat (fl (inject_Z a) + 0) (inject_Z a)) by (rewrite (fl_byte a Ha); ring).
  rewrite <- (py_int_inject a) at 2. apply py_int_compat, fl_byte, Ha.
Qed.

Lemma blend_channel_1 (a b : Z) : (0 <= b <= 255)%Z -> blend_channel a b 1 = b.
Proof.
  intros Hb. unfold blend_channel.
  rewrite (fl_zero (1 - 1)) by ring.
  rewrite (fl_zero (fl (inject_Z a) * 0)) by ring.
  rewrite (fl_compat (fl (inject_Z b) * 1) (inject_Z b)) by (rewrite (fl_byte b Hb); ring).
  rewrite (fl_compat (0 + fl (inject_Z b)) (inject_Z b)) by (rewrite (fl_byte b Hb); ring).
  rewrite <- (py_int_inject b) at 2. apply py_int_compat, fl_byte, Hb.
Qed.

Lemma blend_0 (s e : rgba) : rgba_byte s -> blend s e 0 = s.
Proof.
  destruct s as [[[s0 s1] s2] s3], e as [[[e0 e1] e2] e3]. unfold rgba_byte, blend.
  intros (H0 & H1 & H2 & H3).
  rewrite !blend_channel_0, !clip8_byte by assumption. reflexivity.
Qed.

Lemma blend_1 (s e : rgba) : rgba_byte e -> blend s e 1 = e.
Proof.
  destruct s as [[[s0 s1] s2] s3], e as [[[e0 e1] e2] e3]. unfold rgba_byte, blend.
  intros (H0 & H1 & H2 & H3).
  rewrite !blend_channel_1, !clip8_byte by assumption. reflexivity.
Qed.

Lemma blend_compat (s e : rgba) (r r' : Q) : r == r' -> blend s e r = blend s e r'.
Proof.
  intros H. destruct s as [[[s0 s1] s2] s3], e as [[[e0 e1] e2] e3]. unfold blend.
  rewrite !(blend_channel_compat _ _ r r' H). reflexivity.
Qed.

Lemma gradient_ratio_0 (n : Z) : gradient_ratio 0 n = 0.
Proof. unfold gradient_ratio. apply fl_zero. unfold Qdiv. rewrite Qmult_0_l. reflexivity. Qed.

Lemma gradient_ratio_last (n : Z) : (2 <= n)%Z -> gradient_ratio (n - 1) n == 1.
Proof.
  intros Hn. unfold gradient_ratio.
  rewrite (fl_compat _ 1); [apply fl_one|].
  rewrite Z.max_l by lia. field. unfold Qeq; simpl; lia.
Qed.

Lemma rgba_of_parsed_list (c : rgba) : rgba_of_parsed (Some (rgba_list c)) = Ok c.
Proof. destruct c as [[[r g] b] a]. reflexivity. Qed.

(** X7: a vertical gradient varies only from row to row: its first row has
    exactly the start colour and its last row (for a height of at least 2)
    exactly the end colour, when their channels are in [0..255]; a
    horizontal gradient is the same along the columns.  In between, the
    float rounding of the blend can leave the range of the endpoints:
    between two equal channels 255 the row 3 of 8 gets 254. *)
Theorem create_gradient_image_ends :
  forall (w h : Z) (s e : rgba) (img : image),
    rgba_byte s -> rgba_byte e ->
    (create_gradient_image w h (Some (rgba_list s)) (Some (rgba_list e)) "vertical" = Ok img ->
     size img = (w, h)
     /\ (forall x1 x2 y, px img x1 y = px img x2 y)
     /\ (0 < h -> forall x, px img x 0 = s)%Z
     /\ (2 <= h -> forall x, px img x (h - 1) = e)%Z)
    /\ (create_gradient_image w h (Some (rgba_list s)) (Some (rgba_list e)) "horizontal" = Ok img ->
     size img = (w, h)
     /\ (forall x y1 y2, px img x y1 = px img x y2)
     /\ (0 < w -> forall y, px img 0 y = s)%Z
     /\ (2 <= w -> forall y, px img (w - 1) y = e)%Z)
    /\ blend (255, 255, 255, 255)%Z (255, 255, 255, 255)%Z (gradient_ratio 3 8)
       = (254, 254, 254, 254)%Z.
Proof.
  intros w h s e img Hs He. split; [|split].
  - unfold create_gradient_image. simpl String.eqb. cbv iota.
    destruct (h <=? 0)%Z eqn:Hh.
    + intros H. injection H as <-. apply Z.leb_le in Hh.
      repeat split; intros; try reflexivity; lia.
    + apply Z.leb_gt in Hh. rewrite !rgba_of_parsed_list. simpl.
      intros H. injection H as <-. simpl.
      repeat split.
      * intros x _. rewrite gradient_ratio_0. apply blend_0, Hs.
      * intros H2 x. rewrite (blend_compat _ _ _ _ (gradient_ratio_last h H2)). apply blend_1, He.
  - unfold create_gradient_image. simpl String.eqb. cbv iota.
    destruct (w <=? 0)%Z eqn:Hw.
    + intros H. injection H as <-. apply Z.leb_le in Hw.
      repeat split; intros; try reflexivity; lia.
    + apply Z.leb_gt in Hw. rewrite !rgba_of_parsed_list. simpl.
      intros H. injection H as <-. simpl.
      repeat split.
      * intros y _. rewrite gradient_ratio_0. apply blend_0, Hs.
      * intros H2 y. rewrite (blend_compat _ _ _ _ (gradient_ratio_last w H2)). apply blend_1, He.
  - vm_compute. reflexivity.
Qed.

Lemma create_gradient_image_size (w h : Z) (c1 c2 : option (list Z)) (dir : string) (img : image) :
  create_gradient_image w h c1 c2 dir = Ok img -> size img = (w, h).
Proof.
  unfold create_gradient_image.
  destruct (String.eqb dir "vertical"); [|destruct (String.eqb dir "horizontal"); [|discriminate]];
  [destruct (h <=? 0)%Z|destruct (w <=? 0)%Z];
  try (intros H; injection H as <-; reflexivity);
  destruct (rgba_of_parsed c1); simpl; try discriminate;
  destruct (rgba_of_parsed c2); simpl; try discriminate;
  intros H; injection H as <-; reflexivity.
Qed.

Lemma draw_lines_size E (img : image) font st fill sc img_w pad lines y :
  (forall img xy s f fl sw sc, size (draw_text E img xy s f fl sw sc) = size img) ->
  size (draw_lines E img font st fill sc img_w pad lines y) = size img.
Proof.
  intros Hd. revert img y; induction lines as [|ln lines IH]; intros img y; [reflexivity|].
  simpl. destruct (textbbox E font ln (ts_stroke_width st)) as [[[b0 b1] b2] b3].
  rewrite IH, Hd. reflexivity.
Qed.

Lemma Qclip_range (v : Q) : 0 <= Qclip v 0 255 /\ Qclip v 0 255 <= 255.
Proof.
  unfold Qclip, Qltb.
  destruct (Qle_bool 0 v) eqn:H0; simpl.
  - apply Qle_bool_iff in H0.
    destruct (Qle_bool v 255) eqn:H1; simpl.
    + apply Qle_bool_iff in H1. split; assumption.
    + split; [discriminate|apply Qle_refl].
  - split; [apply Qle_refl|discriminate].
Qed.

(** X8: when Pillow's drawing keeps the canvas size, a rendered text image
    is [max(1, text_w + 2*padding)] by [max(1, text_h + 2*padding)], where
    [text_w] is the widest measured line and [text_h] the sum of the line
    heights plus [line_spacing] between lines, whatever the background;
    and under an opacity below 1 every alpha value lies in [0, 255]. *)
Theorem make_text_rgba_image_size :
  forall E (text : string) (mw : option Z) (st : text_style) (opacity : Q) (img : image),
    (forall img xy s f fl sw sc, size (draw_text E img xy s f fl sw sc) = size img) ->
    make_text_rgba_image E text mw st opacity = Ok img ->
    let font := (ts_font st, ts_font_size st) in
    let lines := wrap_text E text font mw in
    let boxes := map (fun ln => textbbox E font ln (ts_stroke_width st)) lines in
    size img
    = (Z.max 1 (list_max (map (fun '(b0, _, b2, _) => b2 - b0) boxes) + 2 * ts_padding st),
       Z.max 1 (sum_Z (map (fun '(_, b1, _, b3) => b3 - b1) boxes)
                + Z.max 0 (Z.of_nat (length lines) - 1) * ts_line_spacing st
                + 2 * ts_padding st))%Z
    /\ (Qltb opacity 1 = true ->
        forall x y, let '(_, _, _, a) := px img x y in (0 <= a <= 255)%Z).
Proof.
  intros E text mw st opacity img Hd H font lines boxes.
  unfold make_text_rgba_image in H. fold font lines boxes in H.
  set (W := Z.max 1 _) in H |- *. set (Hh := Z.max 1 _) in H |- *.
  destruct (match ts_bg_gradient st with
            | Some g => _ | None => _ end) as [base|err] eqn:Hbase; [|discriminate].
  assert (Hbs : size base = (W, Hh)).
  { destruct (ts_bg_gradient st) as [g|].
    - destruct (parse_hex_color (g_start g)); [|discriminate]. simpl in Hbase.
      destruct (parse_hex_color (g_end g)); [|discriminate]. simpl in Hbase.
      apply create_gradient_image_size in Hbase. exact Hbase.
    - destruct (if color_truthy (ts_bg_color st) then _ else _); [|discriminate].
      simpl in Hbase. injection Hbase as <-. reflexivity. }
  simpl in H.
  destruct (parse_hex_color (ts_color st)); [|discriminate]. simpl in H.
  destruct (parse_hex_color (ts_stroke_color st)); [|discriminate]. simpl in H.
  injection H as <-.
  split.
  - destruct (Qltb opacity 1); [change (size (map_alpha ?f ?i)) with (size i)|];
      rewrite draw_lines_size by exact Hd; exact Hbs.
  - intros Hop x y. rewrite Hop. simpl.
    match goal with |- context [px ?D x y] => destruct (px D x y) as [[[r1 g1] b1] a1] end.
    destruct (Qclip_range (inject_Z a1 * opacity)) as [H0 H1].
    apply py_int_between; assumption.
Qed.


Lemma stack_loop_timings_filter E vsize i ov ti paths :
  forall k ls, stack_loop E vsize i ov ti k paths = Ok ls ->
  map layer_timing ls
  = map (fun j => (ov_start_time ov + inject_Z (Z.of_nat j) * ti,
                   ov_duration ov - inject_Z (Z.of_nat j) * ti))
        (map fst (filter (fun jp => path_exists E (snd jp))
                         (combine (seq k (length paths)) paths))).
Proof.
  induction paths as [|p ps IH]; intros k ls H; simpl in *.
  - injection H as <-. reflexivity.
  - destruct (path_exists E p) eqn:Hp.
    + destruct (stack_image E vsize i ov ti k p) as [l|e] eqn:Hl; simpl in H; [|discriminate].
      destruct (stack_loop E vsize i ov ti (S k) ps) as [ls'|e] eqn:Hls; simpl in H;
        [|discriminate].
      injection H as <-. simpl.
      rewrite (stack_image_timing _ _ _ _ _ _ _ _ Hl), (IH (S k) ls' Hls).
      reflexivity.
    + apply (IH (S k) ls H).
Qed.

(** X10: in an [image_stack], an image file that does not exist is skipped
    without shifting the others: the clip of the [k]-th listed image, when
    it exists, still starts at [s + k * (d / N)] and lasts
    [d - k * (d / N)], with [N] counting the missing images too. *)
Theorem image_stack_missing_files :
  forall E vsize i ov ls,
    image_stack_layers E vsize i ov = Ok ls ->
    map layer_timing ls
    = map (spec_stack_timing (ov_start_time ov) (ov_duration ov)
             (length (ov_image_paths ov)))
          (map fst (filter (fun jp => path_exists E (snd jp))
                           (combine (seq 0 (length (ov_image_paths ov))) (ov_image_paths ov)))).
Proof.
  intros E vsize i ov ls H.
  unfold image_stack_layers in H.
  destruct (ov_image_paths ov) as [|p ps] eqn:Hp.
  - injection H as <-. reflexivity.
  - rewrite <- Hp in H |- *.
    apply (stack_loop_timings_filter E vsize i ov _ _ 0 ls H).
Qed.

Lemma image_layers_shape E vsize ov ls :
  image_layers E vsize ov = Ok ls ->
  length ls = image_clip_count E ov
  /\ Forall (fun l => layer_timing l = (ov_start_time ov, ov_duration ov)) ls.
Proof.
  unfold image_layers, image_clip_count.
  destruct (ov_image_path ov) as [p|]; [|intros H; injection H as <-; split; [reflexivity|constructor]].
  destruct (path_exists E p); simpl; [|intros H; injection H as <-; split; [reflexivity|constructor]].
  ok_steps. intros H; injection H as <-. split; [reflexivity|repeat constructor].
Qed.

Lemma text_layers_shape E vsize ov ls :
  text_layers E vsize ov = Ok ls ->
  length ls = text_clip_count ov
  /\ Forall (fun l => layer_timing l = (ov_start_time ov, ov_duration ov)) ls.
Proof.
  unfold text_layers, text_clip_count.
  destruct (ov_text ov) as [text|]; [|intros H; injection H as <-; split; [reflexivity|constructor]].
  ok_steps; intros H; injection H as <-; split; [reflexivity|repeat constructor
                                                |reflexivity|repeat constructor].
Qed.

(** X11: an overlay other than an [image_stack] yields no clip when it is
    skipped; otherwise its clips are those of its image part followed by
    those of its text part: one clip for its image when it has an
    [image_path] that exists, then one clip for its text when it has a
    [text].  Each clip lasts from the overlay's [start_time] for its
    [duration]. *)
Theorem overlay_clip_shape :
  forall E vd vsize i ov ls,
    String.eqb (ov_type ov) "image_stack" = false ->
    process_overlay E vd vsize i ov = Ok ls ->
    (Qle_bool (ov_duration ov) 0 || Qle_bool vd (ov_start_time ov) = true -> ls = [])
    /\ (Qle_bool (ov_duration ov) 0 || Qle_bool vd (ov_start_time ov) = false ->
        exists a b,
          image_layers E vsize ov = Ok a /\ text_layers E vsize ov = Ok b
          /\ ls = (a ++ b)%list
          /\ length a = image_clip_count E ov /\ length b = text_clip_count ov)
    /\ Forall (fun l => layer_timing l = (ov_start_time ov, ov_duration ov)) ls.
Proof.
  intros E vd vsize i ov ls Ht H. unfold process_overlay in H.
  destruct (Qle_bool (ov_duration ov) 0); simpl;
    [injection H as <-; split; [reflexivity|split; [discriminate|constructor]]|].
  destruct (Qle_bool vd (ov_start_time ov)); simpl;
    [injection H as <-; split; [reflexivity|split; [discriminate|constructor]]|].
  rewrite Ht in H.
  destruct (image_layers E vsize ov) as [a|e] eqn:Ha; simpl in H; [|discriminate].
  destruct (text_layers E vsize ov) as [b|e] eqn:Hb; simpl in H; [|discriminate].
  injection H as <-.
  destruct (image_layers_shape _ _ _ _ Ha) as [La Fa].
  destruct (text_layers_shape _ _ _ _ Hb) as [Lb Fb].
  split; [discriminate|split].
  - intros _. exists a, b. repeat split; assumption.
  - apply Forall_app; split; assumption.
Qed.

(** X12: a single image overlay with a [bg_color] becomes a full-frame clip
    at [(0, 0)]: the image is pasted at the centre of a background of the
    video's size, and its [position] is not used (when pasting keeps the
    background's size). *)
Theorem image_bg_full_frame :
  forall E vsize ov ls,
    (forall base img off, size (paste E base img off) = size base) ->
    ov_bg_color ov <> CNone ->
    image_layers E vsize ov = Ok ls ->
    Forall (fun l => size (l_image l) = vsize /\ l_pos l = (0, 0)%Z) ls.
Proof.
  intros E vsize ov ls Hp Hbg H. unfold image_layers in H.
  destruct (ov_image_path ov) as [p|]; [|injection H as <-; constructor].
  destruct (path_exists E p); cbv beta iota delta [negb] in H; [|injection H as <-; constructor].
  destruct (transform_image E p _ _ _) as [img0|e]; cbn [bind] in H; [|discriminate].
  destruct (override_image E _ _ _ img0) as [img1|e]; cbn [bind] in H; [|discriminate].
  destruct vsize as [vw vh].
  assert (Hr : forall ow oh, resolve_xy 0 0 vw vh ow oh = (0, 0)%Z).
  { intros ow oh. unfold resolve_xy, py_abs, py_int, Qfloor; simpl.
    rewrite !Z.mul_0_r; simpl.
    destruct (Qle_bool _ _), (Qle_bool _ _); reflexivity. }
  destruct (ov_bg_color ov) as [|l|s] eqn:Hc; [congruence| |]; cbv beta iota in H;
    (match type of H with context [parse_hex_color ?c] =>
       destruct (parse_hex_color c) as [c'|e]; simpl in H; [|discriminate] end);
    injection H as <-;
    (constructor; [|constructor]); simpl; rewrite Hp; unfold size; simpl;
    split; try reflexivity; rewrite Hr; reflexivity.
Qed.

Lemma Qdiv_le_mono (a b f : Q) : 0 < f -> a <= b -> a / f <= b / f.
Proof.
  intros Hf Hab. unfold Qdiv. apply Qmult_le_compat_r; [exact Hab|].
  apply Qinv_le_0_compat. lra.
Qed.

Lemma char_opacity_range (t s f : Q) : 0 <= char_opacity t s f /\ char_opacity t s f <= 1.
Proof.
  unfold char_opacity, Qltb.
  destruct (Qle_bool s t) eqn:H1; simpl; [|lra].
  destruct (Qle_bool (s + f) t) eqn:H2; [lra|].
  apply Qle_bool_iff in H1.
  assert (H2' : t < s + f) by (apply Qnot_le_lt; intros H; apply Qle_bool_iff in H; congruence).
  assert (Hf : 0 < f) by lra.
  split.
  - apply Qle_shift_div_l; [exact Hf|lra].
  - apply Qle_shift_div_r; [exact Hf|lra].
Qed.

(** X13: the opacity [make_frame] gives a character is a number in [0, 1]
    that never decreases as [t] grows: 0 before the character's start
    time, 1 from its start time plus the fade duration on (when the fade
    duration is not negative), linear in between. *)
Theorem char_opacity_monotone :
  forall t1 t2 s f,
    (0 <= char_opacity t1 s f /\ char_opacity t1 s f <= 1)
    /\ (t1 <= t2 -> char_opacity t1 s f <= char_opacity t2 s f)
    /\ (t1 < s -> char_opacity t1 s f == 0)
    /\ (0 <= f -> s + f <= t1 -> char_opacity t1 s f == 1).
Proof.
  intros t1 t2 s f. split; [apply char_opacity_range|]. split; [|split].
  - intros Ht.
    destruct (char_opacity_range t2 s f) as [R0 R1].
    destruct (char_opacity_range t1 s f) as [S0 S1].
    revert R0 R1 S0 S1. unfold char_opacity, Qltb.
    destruct (Qle_bool s t1) eqn:A1; simpl; [|intros; lra].
    destruct (Qle_bool s t2) eqn:A2; simpl.
    2:{ apply Qle_bool_iff in A1. exfalso.
        assert (t2 < s) by (apply Qnot_le_lt; intros H; apply Qle_bool_iff in H; congruence).
        lra. }
    destruct (Qle_bool (s + f) t2) eqn:B2; [intros; lra|].
    destruct (Qle_bool (s + f) t1) eqn:B1.
    + apply Qle_bool_iff in B1. exfalso.
      assert (t2 < s + f) by (apply Qnot_le_lt; intros H; apply Qle_bool_iff in H; congruence).
      lra.
    + intros. apply Qle_bool_iff in A1.
      assert (t2 < s + f) by (apply Qnot_le_lt; intros H; apply Qle_bool_iff in H; congruence).
      apply Qdiv_le_mono; lra.
  - intros Hlt. unfold char_opacity, Qltb.
    assert (Hb : Qle_bool s t1 = false).
    { destruct (Qle_bool s t1) eqn:H; [apply Qle_bool_iff in H; lra|reflexivity]. }
    rewrite Hb. reflexivity.
  - intros Hf He. unfold char_opacity, Qltb.
    assert (Hb : Qle_bool s t1 = true) by (apply Qle_bool_iff; lra).
    assert (Hc : Qle_bool (s + f) t1 = true) by (apply Qle_bool_iff; lra).
    rewrite Hb, Hc. reflexivity.
Qed.

Lemma fade_chars_between t delay fade pad w h ps idx alpha x y :
  0 <= alpha x y ->
  0 <= fade_chars t delay fade pad w h ps idx alpha x y
  /\ fade_chars t delay fade pad w h ps idx alpha x y <= alpha x y.
Proof.
  revert idx alpha. induction ps as [|[[[[c px0] py0] cw] ch] rest IH]; intros idx alpha H0.
  - simpl. lra.
  - simpl. destruct (Ascii.eqb c nl); [apply IH; exact H0|].
    match goal with |- context [fade_chars _ _ _ _ _ _ rest _ ?A] =>
      assert (HA : 0 <= A x y /\ A x y <= alpha x y) end.
    { destruct (_ && _ && _); [|lra].
      destruct (_ && _); [|lra].
      destruct (char_opacity_range t (inject_Z (Z.of_nat idx) * delay) fade) as [O0 O1].
      split; nra. }
    destruct HA as [HA0 HA1].
    destruct (IH (S idx) _ HA0) as [I0 I1]. split; lra.
Qed.

Lemma py_int_inject_Z (a : Z) : py_int (inject_Z a) = a.
Proof.
  unfold py_int. destruct (Qle_bool 0 (inject_Z a)).
  - apply Qfloor_Z.
  - change (- inject_Z a) with (inject_Z (- a)). rewrite Qfloor_Z. lia.
Qed.

(** X14: a frame of the character animation keeps the base image's size and
    colour channels; each pixel's alpha becomes a whole number between 0
    and the base alpha (when the base alpha is not negative). *)
Theorem make_frame_pixels :
  forall base ps pad delay fade t x y,
    size (make_frame base ps pad delay fade t) = size base
    /\ (let '(r, g, b, a) := px base x y in
        (0 <= a)%Z ->
        exists a', px (make_frame base ps pad delay fade t) x y = (r, g, b, a')
                   /\ (0 <= a' <= a)%Z).
Proof.
  intros base ps pad delay fade t x y. split; [reflexivity|].
  unfold make_frame; simpl.
  destruct (px base x y) as [[[r g] b] a] eqn:Hp. intros Ha.
  eexists; split; [reflexivity|].
  match goal with |- context [fade_chars ?t ?d ?f ?p ?w ?h ?ps ?i ?A x y] =>
    destruct (fade_chars_between t d f p w h ps i A x y) as [F0 F1] end.
  { simpl. rewrite Hp. unfold Qle; simpl; lia. }
  simpl in F1. rewrite Hp in F1.
  apply py_int_between; [exact F0|exact F1].
Qed.

Lemma fade_chars_settled t delay fade pad w h ps idx alpha :
  0 <= fade ->
  (forall k, (k < length ps)%nat -> inject_Z (Z.of_nat (idx + k)) * delay + fade <= t) ->
  fade_chars t delay fade pad w h ps idx alpha = alpha.
Proof.
  intros Hf. revert idx alpha.
  induction ps as [|[[[[c px0] py0] cw] ch] rest IH]; intros idx alpha Hk; [reflexivity|].
  simpl. destruct (Ascii.eqb c nl).
  - apply IH. intros k Hk'. apply Hk. simpl. lia.
  - assert (Hd := Hk 0%nat ltac:(simpl; lia)). rewrite Nat.add_0_r in Hd.
    assert (Ho : Qltb (char_opacity t (inject_Z (Z.of_nat idx) * delay) fade) 1 = false).
    { unfold char_opacity, Qltb.
      assert (Hb : Qle_bool (inject_Z (Z.of_nat idx) * delay) t = true) by (apply Qle_bool_iff; lra).
      assert (Hc : Qle_bool (inject_Z (Z.of_nat idx) * delay + fade) t = true) by (apply Qle_bool_iff; lra).
      rewrite Hb, Hc. reflexivity. }
    rewrite Ho, andb_false_r. apply IH.
    intros k Hk'. replace (S idx + k)%nat with (idx + S k)%nat by lia. apply Hk. simpl. lia.
Qed.

Lemma make_frame_settled base ps pad delay fade t :
  0 <= delay -> 0 <= fade ->
  inject_Z (Z.of_nat (length ps)) * delay + fade <= t ->
  forall x y, px (make_frame base ps pad delay fade t) x y = px base x y.
Proof.
  intros Hd Hf Ht x y. unfold make_frame. rewrite fade_chars_settled; [| exact Hf |].
  - simpl. destruct (px base x y) as [[[r g] b] a]. rewrite py_int_inject_Z. reflexivity.
  - intros k Hk. simpl.
    assert (inject_Z (Z.of_nat k) <= inject_Z (Z.of_nat (length ps))) by (rewrite <- Zle_Qle; lia).
    nra.
Qed.

Lemma line_char_positions_chars E font line x y :
  map pos_char (line_char_positions E font line x y) = list_ascii_of_string line.
Proof.
  revert x. induction line as [|c r IH]; intros x; [reflexivity|].
  simpl. destruct (textbbox E font (String c "") 0) as [[[b0 b1] b2] b3].
  simpl. f_equal. apply IH.
Qed.

Lemma lines_char_positions_chars E font sp lines y :
  map pos_char (lines_char_positions E font sp lines y)
  = concat (map list_ascii_of_string lines).
Proof.
  revert y. induction lines as [|l ls IH]; intros y; [reflexivity|].
  simpl. destruct (textbbox E font _ 0) as [[[b0 b1] b2] b3].
  rewrite map_app, line_char_positions_chars, IH. reflexivity.
Qed.

Lemma concat_split_on (c : ascii) (s : string) :
  concat (map list_ascii_of_string (split_on c s))
  = filter (fun d => negb (Ascii.eqb d c)) (list_ascii_of_string s).
Proof.
  induction s as [|d r IH]; [reflexivity|].
  simpl. destruct (Ascii.eqb d c) eqn:Hd; simpl.
  - exact IH.
  - destruct (split_on c r) as [|p ps] eqn:Hs; [exfalso; eapply split_on_not_nil; eauto|].
    simpl in *. rewrite <- IH. reflexivity.
Qed.

Lemma get_character_positions_chars E text font sp :
  map pos_char (get_character_positions E text font sp) = non_nl_chars text.
Proof.
  unfold get_character_positions, non_nl_chars.
  rewrite lines_char_positions_chars. apply concat_split_on.
Qed.

(** X15: [_get_character_positions] lists exactly the characters of the
    text other than newlines, in their order in the text. *)
Theorem character_positions_chars :
  forall E text font sp,
    map pos_char (get_character_positions E text font sp) = non_nl_chars text.
Proof.
  intros E text font sp. apply get_character_positions_chars.
Qed.

Lemma line_char_positions_offsets E font line x y :
  forall i c x' y' w h,
    nth_error (line_char_positions E font line x y) i = Some (c, x', y', w, h) ->
    nth_error (list_ascii_of_string line) i = Some c
    /\ x' = (x + sum_Z (map (char_width E font) (firstn i (list_ascii_of_string line))))%Z
    /\ y' = y /\ w = char_width E font c.
Proof.
  revert x. induction line as [|d r IH]; intros x i c x' y' w h H.
  - destruct i; discriminate.
  - simpl in H.
    destruct (textbbox E font (String d "") 0) as [[[b0 b1] b2] b3] eqn:Hb.
    assert (Hw : char_width E font d = (b2 - b0)%Z) by (unfold char_width; rewrite Hb; reflexivity).
    destruct i as [|i].
    + simpl in H. injection H as <- <- <- <- <-. simpl.
      rewrite Hw. repeat split; lia.
    + simpl in H. destruct (IH _ _ _ _ _ _ _ H) as [A [B [C D]]].
      simpl. rewrite Hw. repeat split; auto. lia.
Qed.

Lemma split_on_no_sep (c : ascii) (s : string) :
  ~ In c (list_ascii_of_string s) -> split_on c s = [s].
Proof.
  induction s as [|d r IH]; intros Hn; [reflexivity|].
  simpl in *. destruct (Ascii.eqb d c) eqn:Hd.
  - apply Ascii.eqb_eq in Hd. subst. tauto.
  - rewrite IH by tauto. reflexivity.
Qed.

(** X16: on a text without newlines, the [i]-th entry of
    [_get_character_positions] is the [i]-th character, at y offset 0 and
    at the x offset that is the sum of the widths of the characters before
    it, with its own measured width. *)
Theorem character_positions_one_line :
  forall E text font sp i c x y w h,
    ~ In nl (list_ascii_of_string text) ->
    nth_error (get_character_positions E text font sp) i = Some (c, x, y, w, h) ->
    nth_error (list_ascii_of_string text) i = Some c
    /\ x = sum_Z (map (char_width E font) (firstn i (list_ascii_of_string text)))
    /\ y = 0%Z /\ w = char_width E font c.
Proof.
  intros E text font sp i c x y w h Hn H.
  unfold get_character_positions in H. rewrite split_on_no_sep in H by exact Hn.
  simpl in H. destruct (textbbox E font _ 0) as [[[b0 b1] b2] b3].
  rewrite app_nil_r in H.
  apply line_char_positions_offsets in H. simpl in H. exact H.
Qed.

(** X17: [make_animated_text_clip] fails exactly as [make_text_rgba_image]
    fails; otherwise it returns the base image's size, every frame has
    that size, and (for a non-negative delay and fade duration) from
    [total_chars * char_delay + char_fade_duration] seconds on, where
    [total_chars] counts the non-newline characters of the wrapped text,
    every frame is the base image. *)
Theorem animated_text_clip_frames :
  forall E text mw st op,
    (forall e, make_text_rgba_image E text mw st op = Err e ->
               make_animated_text_clip E text mw st op = Err e)
    /\ (forall base, make_text_rgba_image E text mw st op = Ok base ->
        exists frame, make_animated_text_clip E text mw st op = Ok (frame, size base)
        /\ forall t, size (frame t) = size base
           /\ (0 <= ts_char_delay st -> 0 <= ts_char_fade_duration st ->
               inject_Z (Z.of_nat (length (non_nl_chars
                  (join nl_str (wrap_text E text (ts_font st, ts_font_size st) mw)))))
                 * ts_char_delay st + ts_char_fade_duration st <= t ->
               forall x y, px (frame t) x y = px base x y)).
Proof.
  intros E text mw st op. unfold make_animated_text_clip. split.
  - intros e He. rewrite He. reflexivity.
  - intros base Hb. rewrite Hb. simpl. eexists; split; [reflexivity|].
    intros t. split; [reflexivity|].
    intros Hd Hf Ht. apply make_frame_settled; [exact Hd|exact Hf|].
    rewrite <- (get_character_positions_chars E _ (ts_font st, ts_font_size st) (ts_line_spacing st)), length_map in Ht. exact Ht.
Qed.

Lemma py_int16_hex2_all :
  forallb (fun v => match py_int16 (hex2 v) with Ok w => Z.eqb w v | Err _ => false end)
    bytes_range = true.
Proof. vm_compute. reflexivity. Qed.

Lemma hex_digit_not_space_all :
  forallb (fun v => negb (py_isspace (hex_digit (v mod 16))) && negb (py_isspace (hex_digit (v / 16))))
    bytes_range = true.
Proof. vm_compute. reflexivity. Qed.


Lemma py_int16_hex2 (v : Z) : (0 <= v <= 255)%Z -> py_int16 (hex2 v) = Ok v.
Proof.
  intros Hv. pose proof (proj1 (forallb_forall _ _) py_int16_hex2_all v (in_bytes_range v Hv)) as H.
  simpl in H. destruct (py_int16 (hex2 v)) as [w|e]; [|discriminate].
  apply Z.eqb_eq in H. subst. reflexivity.
Qed.

Lemma hex2_not_space (v : Z) : (0 <= v <= 255)%Z ->
  py_isspace (hex_digit (v / 16)) = false /\ py_isspace (hex_digit (v mod 16)) = false.
Proof.
  intros Hv. pose proof (proj1 (forallb_forall _ _) hex_digit_not_space_all v (in_bytes_range v Hv)) as H.
  simpl in H. apply andb_prop in H as [H1 H2].
  apply negb_true_iff in H1, H2. auto.
Qed.

Lemma rstrip_last (s : string) (c : ascii) :
  py_isspace c = false -> rstrip (s ++ String c EmptyString) = (s ++ String c EmptyString)%string.
Proof.
  intros Hc. induction s as [|d r IH]; simpl.
  - rewrite Hc. reflexivity.
  - rewrite IH. destruct r; reflexivity.
Qed.

Lemma strip_hash_hex (body : string) (c : ascii) :
  py_isspace c = false ->
  strip (String "#" (body ++ String c EmptyString)) = String "#" (body ++ String c EmptyString).
Proof.
  intros Hc. unfold strip. simpl. rewrite rstrip_last by exact Hc.
  destruct body; reflexivity.
Qed.

Lemma py_int16_hex2_digits (v : Z) : (0 <= v <= 255)%Z ->
  py_int16 (String (hex_digit (v / 16)) (String (hex_digit (v mod 16)) EmptyString)) = Ok v.
Proof. apply py_int16_hex2. Qed.

(** X18: [_parse_hex_color] reads back a colour written as ["#rrggbb"] or
    ["#rrggbbaa"] with two lowercase hex digits per channel in 0..255:
    the 6-digit form gives [(r, g, b, 255)], the 8-digit form
    [(r, g, b, a)]. *)
Theorem parse_hex_color_hex2 :
  forall r g b a,
    (0 <= r <= 255)%Z -> (0 <= g <= 255)%Z -> (0 <= b <= 255)%Z -> (0 <= a <= 255)%Z ->
    parse_hex_color (CStr ("#" ++ hex2 r ++ hex2 g ++ hex2 b)) = Ok (Some [r; g; b; 255%Z])
    /\ parse_hex_color (CStr ("#" ++ hex2 r ++ hex2 g ++ hex2 b ++ hex2 a))
       = Ok (Some [r; g; b; a]).
Proof.
  intros r g b a Hr Hg Hb Ha. split.
  - assert (E6 : ("#" ++ hex2 r ++ hex2 g ++ hex2 b)%string
                 = String "#" ((hex2 r ++ hex2 g ++ String (hex_digit (b / 16)) EmptyString)
                               ++ String (hex_digit (b mod 16)) EmptyString)) by reflexivity.
    unfold parse_hex_color. rewrite E6, strip_hash_hex by apply (hex2_not_space b Hb).
    simpl. rewrite !py_int16_hex2_digits by assumption. reflexivity.
  - assert (E8 : ("#" ++ hex2 r ++ hex2 g ++ hex2 b ++ hex2 a)%string
                 = String "#" ((hex2 r ++ hex2 g ++ hex2 b ++ String (hex_digit (a / 16)) EmptyString)
                               ++ String (hex_digit (a mod 16)) EmptyString)) by reflexivity.
    unfold parse_hex_color. rewrite E8, strip_hash_hex by apply (hex2_not_space a Ha).
    simpl. rewrite !py_int16_hex2_digits by assumption. reflexivity.
Qed.

Lemma split_on_no_space (s : string) : Forall no_space (split_on " " s).
Proof.
  induction s as [|d r IH]; simpl.
  - constructor; [intros []|constructor].
  - destruct (Ascii.eqb d " ") eqn:Hd.
    + constructor; [intros []|exact IH].
    + destruct (split_on " " r) as [|p ps] eqn:Hs; [exfalso; eapply split_on_not_nil; eauto|].
      inversion IH as [|? ? Hp Hps]; subst. constructor; [|exact Hps].
      unfold no_space in *. simpl. intros [Heq|Hin]; [subst; rewrite Ascii.eqb_refl in Hd; discriminate|].
      exact (Hp Hin).
Qed.

Lemma wrap_words_fit E font mw m ws current :
  truthy_width mw = Some m ->
  Forall no_space ws ->
  (current = [] \/ (exists w, current = [w] /\ no_space w)
   \/ (line_width E font (join " " current) <= m)%Z) ->
  Forall (fun L => no_space L \/ (line_width E font L <= m)%Z)
    (wrap_words E font mw ws current).
Proof.
  intros Hm. revert current. induction ws as [|w ws IH]; intros current Hws Hc.
  - simpl. destruct current as [|c cs]; [constructor|].
    constructor; [|constructor].
    destruct Hc as [Hc|[[w [Hw Hn]]|Hc]]; [discriminate| |right; exact Hc].
    left. rewrite Hw. exact Hn.
  - inversion Hws as [|? ? Hw Hws']; subst. simpl.
    destruct (textbbox E font (strip (join " " (current ++ [w]))) 0) as [[[b0 b1] b2] b3] eqn:Hb.
    rewrite Hm. destruct current as [|c cs] eqn:Hcur.
    + apply IH; [exact Hws'|]. right; left. exists w. split; [reflexivity|exact Hw].
    + destruct (m <? b2 - b0)%Z eqn:Hlt.
      * constructor.
        -- destruct Hc as [Hc|[[w' [Hw' Hn]]|Hc]]; [discriminate| |right; exact Hc].
           left. rewrite Hw'. exact Hn.
        -- apply IH; [exact Hws'|]. right; left. exists w. split; [reflexivity|exact Hw].
      * apply IH; [exact Hws'|]. right; right.
        unfold line_width. rewrite <- Hcur. rewrite <- Hcur in Hb. rewrite Hb. lia.
Qed.

(** X19: with a non-zero [max_width_px], every line [_wrap_text] returns is
    a single word (it has no space), or its measured width is at most
    [max_width_px]: only a word too wide on its own overflows. *)
Theorem wrap_text_fits :
  forall E text font mw m L,
    truthy_width mw = Some m ->
    In L (wrap_text E text font mw) ->
    no_space L \/ (line_width E font L <= m)%Z.
Proof.
  intros E text font mw m L Hm HL. unfold wrap_text in HL.
  apply in_flat_map in HL as [p [_ Hp]].
  destruct (strip p).
  - destruct Hp as [<-|[]]. left. intros [].
  - assert (HF := wrap_words_fit E font mw m (split_on " " p) [] Hm (split_on_no_space p)
                    (or_introl eq_refl)).
    rewrite Forall_forall in HF. exact (HF L Hp).
Qed.

Lemma assign_images_enough_witness :
  no_stack [cfg_image; cfg_text; cfg_image] = true
  /\ (count_image [cfg_image; cfg_text; cfg_image] <= length ["a.png"; "b.png"; "c.png"])%nat
  /\ length (assign_images [cfg_image; cfg_text; cfg_image] ["a.png"; "b.png"; "c.png"]) = 3%nat
  /\ handed (assign_images [cfg_image; cfg_text; cfg_image] ["a.png"; "b.png"; "c.png"])
     = ["a.png"; "b.png"].
Proof.
  assert (H1 : no_stack [cfg_image; cfg_text; cfg_image] = true) by reflexivity.
  assert (H2 : (count_image [cfg_image; cfg_text; cfg_image]
                <= length ["a.png"; "b.png"; "c.png"])%nat) by (apply Nat.leb_le; vm_compute; reflexivity).
  split; [exact H1|]. split; [exact H2|].
  exact (assign_images_enough _ _ H1 H2).
Defined.

Lemma assign_images_stack_witness :
  no_stack [cfg_image] = true /\ type_is cfg_stack "image_stack" = true
  /\ (count_image [cfg_image] < length ["a.png"; "b.png"; "c.png"])%nat
  /\ assign_images ([cfg_image] ++ cfg_stack :: [cfg_text; cfg_image]) ["a.png"; "b.png"; "c.png"]
     = (assign_images [cfg_image] ["a.png"; "b.png"; "c.png"]
        ++ mk_cfg_overlay (co_type cfg_stack) (co_text cfg_stack) (co_image_path cfg_stack)
             (LStrs (skipn (count_image [cfg_image]) ["a.png"; "b.png"; "c.png"]))
        :: filter (fun o => negb (takes_images o)) [cfg_text; cfg_image])%list.
Proof.
  assert (H1 : no_stack [cfg_image] = true) by reflexivity.
  assert (H2 : type_is cfg_stack "image_stack" = true) by reflexivity.
  assert (H3 : (count_image [cfg_image] < length ["a.png"; "b.png"; "c.png"])%nat)
    by (apply Nat.ltb_lt; vm_compute; reflexivity).
  split; [exact H1|]. split; [exact H2|]. split; [exact H3|].
  exact (assign_images_stack _ _ _ _ H1 H2 H3).
Defined.

Lemma untyped_text_overlay_witness :
  co_type cfg_untyped_text = JAbsent /\ co_text cfg_untyped_text = JStr "Hi ${runner}"
  /\ prepare_overlays [("runner", Some "Ann")] ["a.png"] (Some [cfg_untyped_text])
     = Ok [mk_cfg_overlay JAbsent (JStr "Hi ${runner}") (JStr "a.png") LAbsent]
  /\ no_stack [cfg_image] = true
  /\ assign_images ([cfg_image] ++ cfg_untyped_text :: [cfg_image]) ["a.png"; "b.png"]
     = (assign_images [cfg_image] ["a.png"; "b.png"]
        ++ [mk_cfg_overlay JAbsent (JStr "Hi ${runner}") (JStr "b.png") LAbsent])%list.
Proof.
  assert (H1 : co_type cfg_untyped_text = JAbsent) by reflexivity.
  assert (H2 : co_text cfg_untyped_text = JStr "Hi ${runner}") by reflexivity.
  assert (H3 : no_stack [cfg_image] = true) by reflexivity.
  destruct (untyped_text_overlay [("runner", Some "Ann")] cfg_untyped_text
              "Hi ${runner}" "a.png" [] ["a.png"; "b.png"] H1 H2)
    as [_ [_ [Hp [Hl _]]]].
  split; [exact H1|]. split; [exact H2|]. split; [exact Hp|]. split; [exact H3|].
  rewrite (Hl [cfg_image] [cfg_image] H3). vm_compute. reflexivity.
Defined.

Lemma get_position_keyword_inside_witness :
  get_position (PStr "Bottom-Right") (100, 100)%Z (30, 20)%Z = Ok (70, 80)%Z
  /\ (30 <= 100)%Z /\ (20 <= 100)%Z
  /\ (0 <= 70 <= 100 - 30)%Z /\ (0 <= 80 <= 100 - 20)%Z.
Proof.
  assert (H1 : get_position (PStr "Bottom-Right") (100, 100)%Z (30, 20)%Z = Ok (70, 80)%Z)
    by (vm_compute; reflexivity).
  assert (H2 : (30 <= 100)%Z) by lia.
  assert (H3 : (20 <= 100)%Z) by lia.
  split; [exact H1|]. split; [exact H2|]. split; [exact H3|].
  exact (proj2 (get_position_keyword_inside "Bottom-Right" 100 100 30 20 70 80) H1 H2 H3).
Defined.

Lemma wrap_text_paragraphs_witness :
  truthy_width (Some 0%Z) = None
  /\ wrap_text mono_backend "aa bb cc" test_font (Some 0%Z)
     = map (fun q => match strip q with EmptyString => EmptyString | _ => q end)
           (split_on nl "aa bb cc").
Proof.
  assert (H : truthy_width (Some 0%Z) = None) by reflexivity.
  split; [exact H|].
  exact (proj2 (wrap_text_paragraphs mono_backend "aa bb cc" "" test_font (Some 0%Z)) H).
Defined.

Lemma create_gradient_image_ends_witness :
  rgba_byte (0, 0, 0, 255)%Z /\ rgba_byte (200, 100, 50, 255)%Z
  /\ exists img,
    create_gradient_image 2 3 (Some (rgba_list (0, 0, 0, 255)%Z)) (Some (rgba_list (200, 100, 50, 255)%Z))
      "vertical" = Ok img
    /\ size img = (2, 3)%Z
    /\ (forall x1 x2 y, px img x1 y = px img x2 y)
    /\ (0 < 3 -> forall x, px img x 0 = (0, 0, 0, 255))%Z
    /\ (2 <= 3 -> forall x, px img x (3 - 1) = (200, 100, 50, 255))%Z.
Proof.
  assert (H1 : rgba_byte (0, 0, 0, 255)%Z) by (simpl; lia).
  assert (H2 : rgba_byte (200, 100, 50, 255)%Z) by (simpl; lia).
  split; [exact H1|split; [exact H2|]].
  eexists. split; [reflexivity|].
  exact (proj1 (create_gradient_image_ends 2 3 (0, 0, 0, 255)%Z (200, 100, 50, 255)%Z _ H1 H2)
           eq_refl).
Defined.

Lemma make_text_rgba_image_size_witness :
  (forall img xy s f fl sw sc, size (draw_text test_backend img xy s f fl sw sc) = size img)
  /\ exists img,
       make_text_rgba_image test_backend "Hi" None default_text_style (1 # 2) = Ok img
       /\ Qltb (1 # 2) 1 = true
       /\ size img = (20, 20)%Z
       /\ (forall x y, let '(_, _, _, a) := px img x y in (0 <= a <= 255)%Z).
Proof.
  assert (Hd : forall img xy s f fl sw sc,
             size (draw_text test_backend img xy s f fl sw sc) = size img) by reflexivity.
  assert (Hq : Qltb (1 # 2) 1 = true) by reflexivity.
  split; [exact Hd|]. eexists. split; [reflexivity|]. split; [exact Hq|].
  destruct (make_text_rgba_image_size test_backend "Hi" None default_text_style (1 # 2) _ Hd
              eq_refl) as [Hs Ha].
  split; [exact Hs|exact (Ha Hq)].
Defined.


Lemma image_stack_missing_files_witness :
  exists ls,
    image_stack_layers missing_backend (100, 100)%Z 0 stack_overlay = Ok ls
    /\ map layer_timing ls = map (spec_stack_timing 10 9 3) [0; 2]%nat.
Proof.
  eexists. split; [vm_compute; reflexivity|].
  exact (image_stack_missing_files missing_backend (100, 100)%Z 0 stack_overlay _ eq_refl).
Defined.

Lemma overlay_clip_shape_witness :
  String.eqb (ov_type image_text_overlay) "image_stack" = false
  /\ exists ls a b,
       process_overlay test_backend 10 (100, 100)%Z 0 image_text_overlay = Ok ls
       /\ image_layers test_backend (100, 100)%Z image_text_overlay = Ok a
       /\ text_layers test_backend (100, 100)%Z image_text_overlay = Ok b
       /\ ls = (a ++ b)%list
       /\ length a = 1%nat /\ length b = 1%nat
       /\ Forall (fun l => layer_timing l = (0, 1)) ls.
Proof.
  assert (H : String.eqb (ov_type image_text_overlay) "image_stack" = false) by reflexivity.
  split; [exact H|].
  destruct (process_overlay test_backend 10 (100, 100)%Z 0 image_text_overlay) as [ls|e] eqn:Hp;
    [|vm_compute in Hp; discriminate].
  destruct (overlay_clip_shape test_backend 10 (100, 100)%Z 0 image_text_overlay ls H Hp)
    as [_ [Hs Hf]].
  destruct Hs as [a [b [Ha [Hb [Hab [La Lb]]]]]]; [vm_compute; reflexivity|].
  exists ls, a, b. repeat split; assumption.
Defined.

Lemma image_bg_full_frame_witness :
  (forall base img off, size (paste test_backend base img off) = size base)
  /\ ov_bg_color (image_overlay "a.png" (PStr "top") (CStr "#112233")) <> CNone
  /\ exists ls,
       image_layers test_backend (100, 100)%Z (image_overlay "a.png" (PStr "top") (CStr "#112233"))
         = Ok ls
       /\ Forall (fun l => size (l_image l) = (100, 100)%Z /\ l_pos l = (0, 0)%Z) ls.
Proof.
  assert (H1 : forall base img off, size (paste test_backend base img off) = size base)
    by reflexivity.
  assert (H2 : ov_bg_color (image_overlay "a.png" (PStr "top") (CStr "#112233")) <> CNone)
    by (intros H; discriminate H).
  split; [exact H1|]. split; [exact H2|]. eexists. split; [vm_compute; reflexivity|].
  exact (image_bg_full_frame test_backend (100, 100)%Z _ _ H1 H2 eq_refl).
Defined.

Lemma char_opacity_monotone_witness :
  (1 # 10) <= (2 # 10)
  /\ char_opacity (1 # 10) 0 (15 # 100) <= char_opacity (2 # 10) 0 (15 # 100)
  /\ 0 <= (15 # 100) /\ 0 + (15 # 100) <= (2 # 10)
  /\ char_opacity (2 # 10) 0 (15 # 100) == 1.
Proof.
  assert (H1 : (1 # 10) <= (2 # 10)) by (unfold Qle; simpl; lia).
  assert (H2 : 0 <= (15 # 100)) by (unfold Qle; simpl; lia).
  assert (H3 : 0 + (15 # 100) <= (2 # 10)) by (unfold Qle; simpl; lia).
  split; [exact H1|].
  split; [exact (proj1 (proj2 (char_opacity_monotone (1 # 10) (2 # 10) 0 (15 # 100))) H1)|].
  split; [exact H2|]. split; [exact H3|].
  exact (proj2 (proj2 (proj2 (char_opacity_monotone (2 # 10) (2 # 10) 0 (15 # 100)))) H2 H3).
Defined.

Lemma make_frame_pixels_witness :
  (0 <= 200)%Z
  /\ exists a',
       px (make_frame (image_new (10, 10) (255, 255, 255, 200))%Z
             [("a"%char, 0, 0, 5, 5)%Z] 0 0 1 (1 # 2)) 0 0 = (255, 255, 255, a')%Z
       /\ (0 <= a' <= 200)%Z.
Proof.
  assert (H : (0 <= 200)%Z) by lia.
  split; [exact H|].
  exact (proj2 (make_frame_pixels (image_new (10, 10) (255, 255, 255, 200))%Z
                  [("a"%char, 0, 0, 5, 5)%Z] 0 0 1 (1 # 2) 0 0) H).
Defined.

Lemma character_positions_one_line_witness :
  ~ In nl (list_ascii_of_string "abc")
  /\ nth_error (get_character_positions mono_backend "abc" test_font 6) 2
     = Some ("c"%char, 20, 0, 10, 20)%Z
  /\ nth_error (list_ascii_of_string "abc") 2 = Some "c"%char
  /\ 20%Z = sum_Z (map (char_width mono_backend test_font) (firstn 2 (list_ascii_of_string "abc")))
  /\ 0%Z = 0%Z /\ 10%Z = char_width mono_backend test_font "c"%char.
Proof.
  assert (H1 : ~ In nl (list_ascii_of_string "abc"))
    by (vm_compute; intros [H|[H|[H|[]]]]; discriminate H).
  assert (H2 : nth_error (get_character_positions mono_backend "abc" test_font 6) 2
               = Some ("c"%char, 20, 0, 10, 20)%Z) by (vm_compute; reflexivity).
  split; [exact H1|]. split; [exact H2|].
  exact (character_positions_one_line mono_backend "abc" test_font 6 2 _ _ _ _ _ H1 H2).
Defined.

Lemma animated_text_clip_frames_witness :
  make_text_rgba_image test_backend "Hi" None (style_with_color (CStr "#12")) 1
    = Err (ValueError "Unsupported color format")
  /\ make_animated_text_clip test_backend "Hi" None (style_with_color (CStr "#12")) 1
     = Err (ValueError "Unsupported color format")
  /\ exists base,
       make_text_rgba_image test_backend "Hi" None animated_style 1 = Ok base
       /\ exists frame,
            make_animated_text_clip test_backend "Hi" None animated_style 1 = Ok (frame, size base)
            /\ size (frame 1) = size base
            /\ forall x y, px (frame 1) x y = px base x y.
Proof.
  assert (H1 : make_text_rgba_image test_backend "Hi" None (style_with_color (CStr "#12")) 1
               = Err (ValueError "Unsupported color format")) by (vm_compute; reflexivity).
  split; [exact H1|].
  split; [exact (proj1 (animated_text_clip_frames test_backend "Hi" None
                          (style_with_color (CStr "#12")) 1) _ H1)|].
  eexists. split; [reflexivity|].
  destruct (proj2 (animated_text_clip_frames test_backend "Hi" None animated_style 1) _ eq_refl)
    as [frame [Hc Hf]].
  exists frame. split; [exact Hc|].
  destruct (Hf 1) as [Hs Hp]. split; [exact Hs|].
  apply Hp; unfold Qle; simpl; lia.
Defined.

Lemma parse_hex_color_hex2_witness :
  parse_hex_color (CStr ("#" ++ hex2 18 ++ hex2 52 ++ hex2 86)) = Ok (Some [18; 52; 86; 255]%Z)
  /\ parse_hex_color (CStr ("#" ++ hex2 18 ++ hex2 52 ++ hex2 86 ++ hex2 200))
     = Ok (Some [18; 52; 86; 200]%Z).
Proof.
  apply (parse_hex_color_hex2 18 52 86 200); lia.
Defined.

Lemma wrap_text_fits_witness :
  truthy_width (Some 50%Z) = Some 50%Z
  /\ In "cccccccc" (wrap_text mono_backend "aa bb cccccccc" test_font (Some 50%Z))
  /\ (no_space "cccccccc" \/ (line_width mono_backend test_font "cccccccc" <= 50)%Z).
Proof.
  assert (H1 : truthy_width (Some 50%Z) = Some 50%Z) by reflexivity.
  assert (H2 : In "cccccccc" (wrap_text mono_backend "aa bb cccccccc" test_font (Some 50%Z)))
    by (vm_compute; right; left; reflexivity).
  split; [exact H1|]. split; [exact H2|].
  exact (wrap_text_fits mono_backend "aa bb cccccccc" test_font (Some 50%Z) 50 _ H1 H2).
Defined.
